(** * libpd ring buffer (libpd_wrapper/util/ringbuffer.c)

    A shallow embedding of the single-producer/single-consumer byte ring
    buffer of libpd, and the properties its specification states about it.

    The C code is sequential in this development: every function is run to
    completion on the state of the buffer.  Memory ordering between the
    producer and the consumer thread is outside of what is modelled.  The
    atomic intrinsics are the ones of the branch taken when [__APPLE__] is
    not defined; [rb_free] only releases memory and has no counterpart
    here. *)

From Stdlib Require Import ZArith List Bool Lia.
From Stdlib.Init Require Import Byte.
Import ListNotations.

Local Open Scope Z_scope.

(** ** C [int] arithmetic

    [int] and [int32_t] are 32-bit two's-complement integers.  A value is a
    [Z] in [[INT_MIN, INT_MAX]]; the result of [+] and [-] is reduced into
    that range by [wrap], which is what the compilers of the supported
    targets produce (ISO C leaves signed overflow undefined). *)

Definition INT_MIN : Z := -2147483648.
Definition INT_MAX : Z := 2147483647.

Definition in_int (z : Z) : Prop := INT_MIN <= z <= INT_MAX.

Definition wrap (z : Z) : Z := (z + 2147483648) mod 4294967296 - 2147483648.

Definition int_add (a b : Z) : Z := wrap (a + b).
Definition int_sub (a b : Z) : Z := wrap (a - b).

(** [a % b]: truncated remainder; undefined ([None]) for a zero divisor and
    for [INT_MIN % -1]. *)
Definition int_rem (a b : Z) : option Z :=
  if b =? 0 then None
  else if (a =? INT_MIN) && (b =? -1) then None
  else Some (Z.rem a b).

(** [a & b] on two's-complement integers. *)
Definition int_and (a b : Z) : Z := Z.land a b.

(** ** Memory

    An array of [char] is a list of bytes.  [memcpy dst doff src soff n]
    is [memcpy(dst + doff, src + soff, n)]: it is undefined ([None]) when
    one of the two spans leaves its array.  The count is converted to
    [size_t] by the call, so a negative [n] asks for more bytes than any
    array has. *)

Definition memcpy (dst : list byte) (doff : Z) (src : list byte) (soff : Z)
    (n : Z) : option (list byte) :=
  if (0 <=? n) && (0 <=? doff) && (doff + n <=? Z.of_nat (length dst))
     && (0 <=? soff) && (soff + n <=? Z.of_nat (length src))
  then Some (firstn (Z.to_nat doff) dst
             ++ firstn (Z.to_nat n) (skipn (Z.to_nat soff) src)
             ++ skipn (Z.to_nat (doff + n)) dst)
  else None.

(** [put dst off seg]: [dst] with [seg] laid over it from offset [off]. *)
Definition put {A : Type} (dst : list A) (off : nat) (seg : list A) : list A :=
  firstn off dst ++ seg ++ skipn (off + length seg) dst.

(** The allocator of the C library.  [malloc_ok] tells whether
    [malloc(sizeof(ring_buffer))] returns a block; [calloc n] is
    [calloc(n, sizeof(char))] for a request of [n] bytes ([n] already a
    [size_t]). *)
Record allocator : Type := {
  malloc_ok : bool;
  calloc : Z -> option (list byte)
}.

(** What ISO C promises of [calloc]: a block it returns has the size asked
    for and all its bytes are zero. *)
Definition calloc_spec (a : allocator) : Prop :=
  forall n p, calloc a n = Some p -> p = repeat x00 (Z.to_nat n).

(** Conversion of an [int] to [size_t] (64 bits on the LP64 targets). *)
Definition to_size_t (n : Z) : Z := n mod 18446744073709551616.

(** ** The buffer *)

(** Modelled from the spec: the [ring_buffer] struct, declared in
    ringbuffer.h, which is not among the sources; its fields are the ones
    ringbuffer.c reads and writes ([size], [buf_ptr], [write_idx],
    [read_idx]), the spec's capacity, storage, write position and read
    position. *)
Record ring_buffer : Type := mk_ring_buffer {
  size : Z;
  buf_ptr : list byte;
  write_idx : Z;
  read_idx : Z
}.

Definition set_buf_ptr (b : ring_buffer) (m : list byte) : ring_buffer :=
  {| size := size b; buf_ptr := m;
     write_idx := write_idx b; read_idx := read_idx b |}.

Definition set_write_idx (b : ring_buffer) (i : Z) : ring_buffer :=
  {| size := size b; buf_ptr := buf_ptr b;
     write_idx := i; read_idx := read_idx b |}.

Definition set_read_idx (b : ring_buffer) (i : Z) : ring_buffer :=
  {| size := size b; buf_ptr := buf_ptr b;
     write_idx := write_idx b; read_idx := i |}.

(** [__sync_fetch_and_or(&x, 0)]: stores [x | 0] and returns the value the
    cell had before. The pair is (value returned, value stored). *)
Definition sync_fetch_and_or (x v : Z) : Z * Z := (x, Z.lor x v).

(** [__sync_val_compare_and_swap(&x, old, new)]: the value the cell holds
    afterwards. *)
Definition sync_val_compare_and_swap (x old new : Z) : Z :=
  if x =? old then new else x.

(** A pointer to a buffer is [None] for [NULL]. Functions whose behaviour
    can be undefined return an [option]; [None] is undefined behaviour. *)

Notation "'do' x <- c ; k" :=
  (match c with Some x => k | None => None end)
  (at level 10, x pattern, c at level 100, k at level 200).

Definition rb_create (a : allocator) (size : Z) : option ring_buffer :=
  if negb (int_and size 255 =? 0) then None
  else if negb (malloc_ok a) then None
  else match calloc a (to_size_t size) with
       | None => None
       | Some p =>
           Some {| size := size; buf_ptr := p; write_idx := 0; read_idx := 0 |}
       end.

Definition rb_available_to_write (buffer : option ring_buffer) : option Z :=
  match buffer with
  | Some b =>
      let r_idx := fst (sync_fetch_and_or (read_idx b) 0) in
      let w_idx := fst (sync_fetch_and_or (write_idx b) 0) in
      int_rem (int_sub (int_sub (int_add (size b) r_idx) w_idx) 1) (size b)
  | None => Some 0
  end.

Definition rb_available_to_read (buffer : option ring_buffer) : option Z :=
  match buffer with
  | Some b =>
      let r_idx := fst (sync_fetch_and_or (read_idx b) 0) in
      let w_idx := fst (sync_fetch_and_or (write_idx b) 0) in
      int_rem (int_sub (int_add (size b) w_idx) r_idx) (size b)
  | None => Some 0
  end.

(** The copy of [rb_write_to_buffer] (the [if]/[else] around its calls of
    [memcpy]): the storage afterwards. *)
Definition write_copy (b : ring_buffer) (src : list byte) (len : Z)
    : option (list byte) :=
  let w_idx := write_idx b in
  if int_add w_idx len <=? size b
  then memcpy (buf_ptr b) w_idx src 0 len
  else
    let d := int_sub (size b) w_idx in
    do m1 <- memcpy (buf_ptr b) w_idx src 0 d;
    memcpy m1 0 src d (int_sub len d).

(** The copy of [rb_read_from_buffer]: the array at [dest] afterwards. *)
Definition read_copy (b : ring_buffer) (dest : list byte) (len : Z)
    : option (list byte) :=
  let r_idx := read_idx b in
  if int_add r_idx len <=? size b
  then memcpy dest 0 (buf_ptr b) r_idx len
  else
    let d := int_sub (size b) r_idx in
    do o1 <- memcpy dest 0 (buf_ptr b) r_idx d;
    memcpy o1 d (buf_ptr b) 0 (int_sub len d).

(** [rb_write_to_buffer buffer src len]: the value returned and the buffer
    afterwards. [src] is the array [src] points to. *)
Definition rb_write_to_buffer (buffer : option ring_buffer) (src : list byte)
    (len : Z) : option (Z * option ring_buffer) :=
  if len =? 0 then Some (0, buffer)
  else match buffer with
  | None => Some (-1, buffer)
  | Some b =>
      if len <? 0 then Some (-1, buffer)
      else
        do avail <- rb_available_to_write buffer;
        if len >? avail then Some (-1, buffer)
        else
          let w_idx := write_idx b in
          do m <- write_copy b src len;
          do next <- int_rem (int_add w_idx len) (size b);
          let b1 := set_buf_ptr b m in
          Some (0, Some (set_write_idx b1
                  (sync_val_compare_and_swap (write_idx b1) w_idx next)))
  end.

(** [rb_read_from_buffer buffer dest len]: the value returned, the buffer
    afterwards and the array [dest] points to afterwards. *)
Definition rb_read_from_buffer (buffer : option ring_buffer) (dest : list byte)
    (len : Z) : option (Z * option ring_buffer * list byte) :=
  if len =? 0 then Some (0, buffer, dest)
  else match buffer with
  | None => Some (-1, buffer, dest)
  | Some b =>
      if len <? 0 then Some (-1, buffer, dest)
      else
        do avail <- rb_available_to_read buffer;
        if len >? avail then Some (-1, buffer, dest)
        else
          let r_idx := read_idx b in
          do out <- read_copy b dest len;
          do next <- int_rem (int_add r_idx len) (size b);
          Some (0, Some (set_read_idx b
                  (sync_val_compare_and_swap (read_idx b) r_idx next)), out)
  end.

(** ** The formulas of the specification

    The two capacity queries as the specification words them, over the
    mathematical integers. *)

Definition spec_available_to_write (b : ring_buffer) : Z :=
  (size b + read_idx b - write_idx b - 1) mod size b.

Definition spec_available_to_read (b : ring_buffer) : Z :=
  (size b + write_idx b - read_idx b) mod size b.

(** The copy as the specification words it: one block when the span ends
    at or before the end of the storage, otherwise [capacity - position]
    bytes at the tail and the remaining bytes at offset 0. *)
Definition spec_write_copy (b : ring_buffer) (src : list byte) (len : Z)
    : option (list byte) :=
  if write_idx b + len <=? size b
  then memcpy (buf_ptr b) (write_idx b) src 0 len
  else
    do m1 <- memcpy (buf_ptr b) (write_idx b) src 0 (size b - write_idx b);
    memcpy m1 0 src (size b - write_idx b) (len - (size b - write_idx b)).

Definition spec_read_copy (b : ring_buffer) (dest : list byte) (len : Z)
    : option (list byte) :=
  if read_idx b + len <=? size b
  then memcpy dest 0 (buf_ptr b) (read_idx b) len
  else
    do o1 <- memcpy dest 0 (buf_ptr b) (read_idx b) (size b - read_idx b);
    memcpy o1 (size b - read_idx b) (buf_ptr b) 0
           (len - (size b - read_idx b)).

(** The buffer after a write of [len] bytes that left the storage [m]. *)
Definition after_write (b : ring_buffer) (m : list byte) (len : Z)
    : ring_buffer :=
  {| size := size b; buf_ptr := m;
     write_idx := (write_idx b + len) mod size b; read_idx := read_idx b |}.

Definition after_read (b : ring_buffer) (len : Z) : ring_buffer :=
  {| size := size b; buf_ptr := buf_ptr b;
     write_idx := write_idx b; read_idx := (read_idx b + len) mod size b |}.

(** ** Well-formed buffers

    The data model of the specification: a positive capacity that is a
    multiple of 256 (and fits an [int]), a storage array of exactly that
    many bytes, and both positions inside [[0, capacity)]. *)

Definition wfb (b : ring_buffer) : bool :=
  (0 <? size b) && (size b <=? INT_MAX) && (size b mod 256 =? 0)
  && (Z.of_nat (length (buf_ptr b)) =? size b)
  && (0 <=? write_idx b) && (write_idx b <? size b)
  && (0 <=? read_idx b) && (read_idx b <? size b).

Definition wf (b : ring_buffer) : Prop := wfb b = true.

(** The buffer holds no unread byte. *)
Definition is_empty (b : ring_buffer) : Prop := write_idx b = read_idx b.

(** The capacities for which no sum of the code leaves the range of
    [int]: at most [2^30]. *)
Definition small (b : ring_buffer) : Prop := size b <= 1073741824.

(** ** The unread bytes *)

(** [rot k l]: [l] read from offset [k] on, going round its end. *)
Definition rot {A : Type} (k : nat) (l : list A) : list A :=
  skipn k l ++ firstn k l.

(** The bytes written and not yet read, oldest first: the storage read
    from [read_idx] on, round its end, for as many bytes as lie between the
    read and the write position. *)
Definition contents (b : ring_buffer) : list byte :=
  firstn (Z.to_nat (spec_available_to_read b))
         (rot (Z.to_nat (read_idx b)) (buf_ptr b)).

(** The write position is one slot behind the read position. *)
Definition is_full (b : ring_buffer) : Prop :=
  (write_idx b + 1) mod size b = read_idx b.

(** An allocator that refuses every request above [PTRDIFF_MAX], as the
    allocators of the C libraries do. *)
Definition refuses_huge (a : allocator) : Prop :=
  forall n, 9223372036854775807 < n -> calloc a n = None.

(** ** Sequences of operations *)

Inductive op : Type :=
| Write (src : list byte) (len : Z)
| Read (dest : list byte) (len : Z).

(** One call on a buffer: the buffer afterwards ([None]: undefined). *)
Definition step (b : ring_buffer) (o : op) : option ring_buffer :=
  match o with
  | Write src len =>
      do r <- rb_write_to_buffer (Some b) src len; snd r
  | Read dest len =>
      do r <- rb_read_from_buffer (Some b) dest len; snd (fst r)
  end.

Fixpoint run (b : ring_buffer) (ops : list op) : option ring_buffer :=
  match ops with
  | [] => Some b
  | o :: ops' => do b' <- step b o; run b' ops'
  end.

(** A caller hands [memcpy] arrays that hold at least [len] bytes. *)
Definition op_fits (o : op) : Prop :=
  match o with
  | Write src len => len <= Z.of_nat (length src)
  | Read dest len => len <= Z.of_nat (length dest)
  end.

(** ** Examples: allocators and buffers *)

(** An allocator with memory to spare: every request up to [PTRDIFF_MAX]
    is served, one of zero bytes too (as glibc does). *)
Definition libc : allocator :=
  {| malloc_ok := true;
     calloc := fun n => if n <=? 9223372036854775807
                        then Some (repeat x00 (Z.to_nat n)) else None |}.

(** What [rb_create] returns for a size of 0 when [calloc(0, 1)] returns a
    block: a buffer of capacity 0. *)
Definition zero_capacity : ring_buffer :=
  {| size := 0; buf_ptr := []; write_idx := 0; read_idx := 0 |}.

(** 256 bytes, one of them (the byte ["A"]) written and not yet read. *)
Definition one_unread : ring_buffer :=
  {| size := 256; buf_ptr := x41 :: repeat x00 255;
     write_idx := 1; read_idx := 0 |}.

(** 256 bytes, empty, both positions at 200. *)
Definition empty_at_200 : ring_buffer :=
  {| size := 256; buf_ptr := repeat x00 256;
     write_idx := 200; read_idx := 200 |}.

(** 256 bytes, two of them unread, ["A"] in the last slot and ["B"] in the
    first: the unread bytes go round the end of the storage. *)
Definition wrapped_two : ring_buffer :=
  {| size := 256; buf_ptr := x42 :: repeat x00 254 ++ [x41];
     write_idx := 1; read_idx := 255 |}.

(** 256 bytes, full: 255 bytes unread. *)
Definition full_256 : ring_buffer :=
  {| size := 256; buf_ptr := repeat x41 255 ++ [x00];
     write_idx := 255; read_idx := 0 |}.

(** 512 bytes, as [rb_create] returns them. *)
Definition fresh_512 : ring_buffer :=
  {| size := 512; buf_ptr := repeat x00 512; write_idx := 0; read_idx := 0 |}.

(** ** The claims, as predicates *)

(** Writing [B] ([L] bytes) and then reading [L] bytes succeeds and leaves
    [B] in the first [L] bytes of [dest]. *)
Definition round_trip (buffer : option ring_buffer) (B dest : list byte)
    (L : Z) : Prop :=
  exists buffer1 buffer2 out,
    rb_write_to_buffer buffer B L = Some (0, buffer1)
    /\ rb_read_from_buffer buffer1 dest L = Some (0, buffer2, out)
    /\ firstn (Z.to_nat L) out = B.

(** A null pointer, or an empty buffer of a capacity up to [2^30]. *)
Definition empty_or_null (buffer : option ring_buffer) : Prop :=
  match buffer with
  | None => True
  | Some b => wf b /\ small b /\ is_empty b
  end.

Definition positive_multiple (c : Z) : bool := (0 <? c) && (c mod 256 =? 0).

(** [rb_create] returned a buffer, and the buffer is empty. *)
Definition created_empty (a : allocator) (c : Z) : Prop :=
  exists b, rb_create a c = Some b
            /\ rb_available_to_read (Some b) = Some 0
            /\ rb_available_to_write (Some b) = Some (c - 1).

(** Create validation as the specification states it. *)
Definition create_validation (a : allocator) (c : Z) : Prop :=
  if positive_multiple c then created_empty a c else rb_create a c = None.

(** Create validation as the code has it: the alignment is checked, and a
    positive multiple of 256 gives a buffer exactly when both allocations
    succeed. *)
Definition create_contract (a : allocator) (c : Z) : Prop :=
  (c mod 256 <> 0 -> rb_create a c = None)
  /\ (positive_multiple c = true ->
      (malloc_ok a = true /\ calloc a c <> None -> created_empty a c)
      /\ (malloc_ok a = false \/ calloc a c = None -> rb_create a c = None)).

(** The three conditions under which a write (a read) is refused. *)
Definition write_refused (buffer : option ring_buffer) (len : Z) : Prop :=
  buffer = None \/ len < 0
  \/ exists av, rb_available_to_write buffer = Some av /\ av < len.

Definition read_refused (buffer : option ring_buffer) (len : Z) : Prop :=
  buffer = None \/ len < 0
  \/ exists av, rb_available_to_read buffer = Some av /\ av < len.

(** A call fails exactly when it is refused, and a failed call returns the
    buffer (and the destination) it was given. *)
Definition fails_when_refused (buffer : option ring_buffer)
    (src dest : list byte) (len : Z) : Prop :=
  ((exists buffer', rb_write_to_buffer buffer src len = Some (-1, buffer'))
   <-> write_refused buffer len)
  /\ (forall buffer', rb_write_to_buffer buffer src len = Some (-1, buffer') ->
      buffer' = buffer)
  /\ ((exists buffer' out,
         rb_read_from_buffer buffer dest len = Some (-1, buffer', out))
      <-> read_refused buffer len)
  /\ (forall buffer' out,
        rb_read_from_buffer buffer dest len = Some (-1, buffer', out) ->
        buffer' = buffer /\ out = dest).

(** * Proofs *)

(** ** Integer arithmetic *)

Lemma wrap_id (z : Z) : in_int z -> wrap z = z.
Proof.
  unfold in_int, INT_MIN, INT_MAX, wrap; intros H.
  rewrite Z.mod_small; lia.
Qed.

Lemma wrap_above (z : Z) :
  INT_MAX < z < 4294967296 + 2147483648 -> wrap z = z - 4294967296.
Proof.
  unfold INT_MAX, wrap; intros H.
  replace (z + 2147483648) with ((z - 2147483648) + 1 * 4294967296) by lia.
  rewrite Z.mod_add by lia.
  rewrite Z.mod_small; lia.
Qed.

Lemma wrap_congr (x y : Z) :
  (x - y) mod 4294967296 = 0 -> wrap x = wrap y.
Proof.
  unfold wrap; intros H.
  apply Z.mod_divide in H; [|lia]. destruct H as [k Hk].
  replace (x + 2147483648) with ((y + 2147483648) + k * 4294967296) by lia.
  now rewrite Z.mod_add by lia.
Qed.

Lemma wrap_wrap_add (x y : Z) : wrap (wrap x + y) = wrap (x + y).
Proof.
  apply wrap_congr. unfold wrap.
  rewrite (Z.mod_eq (x + 2147483648) 4294967296) by lia.
  replace (_ - _) with
    ((- ((x + 2147483648) / 4294967296)) * 4294967296) by lia.
  apply Z.mod_mul; lia.
Qed.

Lemma wrap_wrap_sub (x y : Z) : wrap (wrap x - y) = wrap (x - y).
Proof. apply (wrap_wrap_add x (- y)). Qed.

Lemma int_and_255 (z : Z) : int_and z 255 = z mod 256.
Proof.
  unfold int_and. change 255 with (Z.ones 8). change 256 with (2 ^ 8).
  apply Z.land_ones; lia.
Qed.

Lemma int_rem_pos (a b : Z) :
  0 <= a -> 0 < b -> int_rem a b = Some (a mod b).
Proof.
  intros Ha Hb. unfold int_rem.
  destruct (b =? 0) eqn:E; [lia|].
  destruct (b =? -1) eqn:E1; [lia|].
  rewrite andb_false_r. now rewrite Z.rem_mod_nonneg by lia.
Qed.

Lemma int_rem_neg (a b : Z) :
  INT_MIN <= a -> a <= 0 -> 0 < b ->
  exists v, int_rem a b = Some v /\ v <= 0.
Proof.
  intros Hm Ha Hb. unfold int_rem.
  destruct (b =? 0) eqn:E; [lia|].
  destruct (b =? -1) eqn:E1; [lia|].
  rewrite andb_false_r. eexists; split; [reflexivity|].
  apply Z.rem_nonpos; lia.
Qed.

Lemma fetch_or_zero (x : Z) : sync_fetch_and_or x 0 = (x, x).
Proof. unfold sync_fetch_and_or. now rewrite Z.lor_0_r. Qed.

Lemma cas_same (x new : Z) : sync_val_compare_and_swap x x new = new.
Proof. unfold sync_val_compare_and_swap. now rewrite Z.eqb_refl. Qed.

Lemma wf_iff (b : ring_buffer) :
  wf b <->
  0 < size b <= INT_MAX /\ size b mod 256 = 0
  /\ Z.of_nat (length (buf_ptr b)) = size b
  /\ 0 <= write_idx b < size b /\ 0 <= read_idx b < size b.
Proof.
  unfold wf, wfb. rewrite !andb_true_iff.
  rewrite !Z.ltb_lt, !Z.leb_le, !Z.eqb_eq. tauto.
Qed.

Ltac unwf H :=
  let H' := fresh H in
  pose proof (proj1 (wf_iff _) H) as H';
  destruct H' as (?Hsz & ?Hal & ?Hlen & ?Hw & ?Hr).

(** ** The capacity queries *)

Lemma write_sum_wrap (s r w : Z) :
  int_sub (int_sub (int_add s r) w) 1 = wrap (s + r - w - 1).
Proof.
  unfold int_sub, int_add.
  rewrite wrap_wrap_sub.
  replace (wrap (s + r) - w - 1) with (wrap (s + r) - (w + 1)) by lia.
  rewrite wrap_wrap_sub. f_equal; lia.
Qed.

Lemma read_sum_wrap (s r w : Z) :
  int_sub (int_add s w) r = wrap (s + w - r).
Proof. unfold int_sub, int_add. now rewrite wrap_wrap_sub. Qed.

Lemma available_to_write_unfold (b : ring_buffer) :
  rb_available_to_write (Some b) =
  int_rem (wrap (size b + read_idx b - write_idx b - 1)) (size b).
Proof.
  unfold rb_available_to_write. rewrite !fetch_or_zero. cbn [fst].
  now rewrite write_sum_wrap.
Qed.

Lemma available_to_read_unfold (b : ring_buffer) :
  rb_available_to_read (Some b) =
  int_rem (wrap (size b + write_idx b - read_idx b)) (size b).
Proof.
  unfold rb_available_to_read. rewrite !fetch_or_zero. cbn [fst].
  now rewrite read_sum_wrap.
Qed.

Lemma available_to_write_exact (b : ring_buffer) :
  wf b -> size b + read_idx b - write_idx b - 1 <= INT_MAX ->
  rb_available_to_write (Some b) = Some (spec_available_to_write b).
Proof.
  intros H Hno. unwf H. rewrite available_to_write_unfold.
  rewrite wrap_id by (unfold in_int, INT_MIN; lia).
  apply int_rem_pos; lia.
Qed.

Lemma available_to_read_exact (b : ring_buffer) :
  wf b -> size b + write_idx b - read_idx b <= INT_MAX ->
  rb_available_to_read (Some b) = Some (spec_available_to_read b).
Proof.
  intros H Hno. unwf H. rewrite available_to_read_unfold.
  rewrite wrap_id by (unfold in_int, INT_MIN; lia).
  apply int_rem_pos; lia.
Qed.

(** When the sum leaves the range of [int] the query does not return the
    number of free (or unread) bytes: its result is zero or negative. *)
Lemma available_to_write_overflow (b : ring_buffer) :
  wf b -> INT_MAX < size b + read_idx b - write_idx b - 1 ->
  exists v, rb_available_to_write (Some b) = Some v /\ v <= 0.
Proof.
  intros H Hov. unwf H. rewrite available_to_write_unfold.
  unfold INT_MAX in *.
  rewrite wrap_above by (unfold INT_MAX; lia).
  apply int_rem_neg; unfold INT_MIN; lia.
Qed.

Lemma available_to_read_overflow (b : ring_buffer) :
  wf b -> INT_MAX < size b + write_idx b - read_idx b ->
  exists v, rb_available_to_read (Some b) = Some v /\ v <= 0.
Proof.
  intros H Hov. unwf H. rewrite available_to_read_unfold.
  unfold INT_MAX in *.
  rewrite wrap_above by (unfold INT_MAX; lia).
  apply int_rem_neg; unfold INT_MIN; lia.
Qed.

(** On a well-formed buffer both queries are defined, and what they return
    never exceeds what the formula of the specification gives. *)
Lemma available_to_write_defined (b : ring_buffer) :
  wf b ->
  exists v, rb_available_to_write (Some b) = Some v
            /\ v <= spec_available_to_write b
            /\ (0 < v -> v = spec_available_to_write b
                         /\ size b + read_idx b - write_idx b - 1 <= INT_MAX).
Proof.
  intros H. unwf H.
  assert (Hs : 0 <= spec_available_to_write b < size b)
    by (apply Z.mod_pos_bound; lia).
  destruct (Z_le_gt_dec (size b + read_idx b - write_idx b - 1) INT_MAX)
    as [Hno|Hov].
  - exists (spec_available_to_write b).
    split; [now apply available_to_write_exact|]. split; [lia|]. tauto.
  - destruct (available_to_write_overflow b H ltac:(lia)) as (v & Hv & Hle).
    exists v. split; [exact Hv|]. split; lia.
Qed.

Lemma available_to_read_defined (b : ring_buffer) :
  wf b ->
  exists v, rb_available_to_read (Some b) = Some v
            /\ v <= spec_available_to_read b
            /\ (0 < v -> v = spec_available_to_read b
                         /\ size b + write_idx b - read_idx b <= INT_MAX).
Proof.
  intros H. unwf H.
  assert (Hs : 0 <= spec_available_to_read b < size b)
    by (apply Z.mod_pos_bound; lia).
  destruct (Z_le_gt_dec (size b + write_idx b - read_idx b) INT_MAX)
    as [Hno|Hov].
  - exists (spec_available_to_read b).
    split; [now apply available_to_read_exact|]. split; [lia|]. tauto.
  - destruct (available_to_read_overflow b H ltac:(lia)) as (v & Hv & Hle).
    exists v. split; [exact Hv|]. split; lia.
Qed.

Lemma spec_available_sum (b : ring_buffer) :
  wf b -> spec_available_to_read b + spec_available_to_write b = size b - 1.
Proof.
  intros H. unwf H. unfold spec_available_to_read, spec_available_to_write.
  destruct (Z_lt_ge_dec (write_idx b) (read_idx b)) as [Hlt|Hge].
  - rewrite (Z.mod_small (size b + write_idx b - read_idx b)) by lia.
    replace (size b + read_idx b - write_idx b - 1)
      with ((read_idx b - write_idx b - 1) + 1 * size b) by lia.
    rewrite Z.mod_add by lia. rewrite Z.mod_small; lia.
  - replace (size b + write_idx b - read_idx b)
      with ((write_idx b - read_idx b) + 1 * size b) by lia.
    rewrite Z.mod_add by lia.
    rewrite (Z.mod_small (write_idx b - read_idx b)) by lia.
    rewrite Z.mod_small; lia.
Qed.

(** ** Copies *)

Lemma put_length {A : Type} (dst seg : list A) (off : nat) :
  (off + length seg <= length dst)%nat ->
  length (put dst off seg) = length dst.
Proof.
  intros H. unfold put.
  rewrite !length_app, length_firstn, length_skipn. lia.
Qed.

Lemma skipn_put {A : Type} (dst seg : list A) (off : nat) :
  (off <= length dst)%nat ->
  skipn off (put dst off seg) = seg ++ skipn (off + length seg) dst.
Proof.
  intros H. unfold put.
  rewrite skipn_app, length_firstn, Nat.min_l by lia.
  rewrite Nat.sub_diag. cbn [skipn].
  rewrite skipn_all2; [reflexivity|]. rewrite length_firstn; lia.
Qed.

Lemma get_put {A : Type} (dst seg : list A) (off : nat) :
  (off <= length dst)%nat ->
  firstn (length seg) (skipn off (put dst off seg)) = seg.
Proof.
  intros H. rewrite skipn_put by exact H.
  rewrite firstn_app, Nat.sub_diag. cbn [firstn].
  rewrite firstn_all. apply app_nil_r.
Qed.

Lemma put_zero {A : Type} (dst seg : list A) :
  put dst 0 seg = seg ++ skipn (length seg) dst.
Proof. reflexivity. Qed.

Lemma skipn_put_zero {A : Type} (dst seg : list A) (k : nat) :
  (length seg <= k)%nat ->
  skipn k (put dst 0 seg) = skipn k dst.
Proof.
  intros H. rewrite put_zero, skipn_app.
  rewrite skipn_all2 by exact H. cbn [app].
  rewrite skipn_skipn. f_equal. lia.
Qed.

Lemma memcpy_defined (dst src : list byte) (doff soff n : Z) :
  0 <= n -> 0 <= doff -> doff + n <= Z.of_nat (length dst) ->
  0 <= soff -> soff + n <= Z.of_nat (length src) ->
  memcpy dst doff src soff n =
  Some (put dst (Z.to_nat doff)
            (firstn (Z.to_nat n) (skipn (Z.to_nat soff) src))).
Proof.
  intros Hn Hd Hdn Hs Hsn. unfold memcpy.
  rewrite (proj2 (Z.leb_le _ _) Hn), (proj2 (Z.leb_le _ _) Hd),
    (proj2 (Z.leb_le _ _) Hdn), (proj2 (Z.leb_le _ _) Hs),
    (proj2 (Z.leb_le _ _) Hsn).
  cbn [andb]. unfold put. do 4 f_equal.
  rewrite length_firstn, length_skipn. lia.
Qed.

Lemma memcpy_inv (dst src m : list byte) (doff soff n : Z) :
  memcpy dst doff src soff n = Some m ->
  0 <= n /\ 0 <= doff /\ doff + n <= Z.of_nat (length dst)
  /\ 0 <= soff /\ soff + n <= Z.of_nat (length src)
  /\ m = put dst (Z.to_nat doff)
             (firstn (Z.to_nat n) (skipn (Z.to_nat soff) src)).
Proof.
  intros H.
  assert (Hb : 0 <= n /\ 0 <= doff /\ doff + n <= Z.of_nat (length dst)
               /\ 0 <= soff /\ soff + n <= Z.of_nat (length src)).
  { unfold memcpy in H.
    destruct ((0 <=? n) && (0 <=? doff)
              && (doff + n <=? Z.of_nat (length dst))
              && (0 <=? soff) && (soff + n <=? Z.of_nat (length src)))
      eqn:E; [|discriminate].
    rewrite !andb_true_iff, !Z.leb_le in E. tauto. }
  destruct Hb as (Hn & Hd & Hdn & Hs & Hsn).
  rewrite memcpy_defined in H by assumption.
  injection H as <-. tauto.
Qed.

Lemma memcpy_beyond (dst src : list byte) (doff soff n : Z) :
  Z.of_nat (length dst) < doff + n -> memcpy dst doff src soff n = None.
Proof.
  intros H. unfold memcpy.
  rewrite (proj2 (Z.leb_gt _ _) H).
  now rewrite andb_false_r, !andb_false_l.
Qed.

Lemma memcpy_length (dst src m : list byte) (doff soff n : Z) :
  memcpy dst doff src soff n = Some m -> length m = length dst.
Proof.
  intros H. apply memcpy_inv in H.
  destruct H as (Hn & Hd & Hdn & Hs & Hsn & ->).
  apply put_length. rewrite length_firstn, length_skipn. lia.
Qed.

Lemma write_copy_exact (b : ring_buffer) (src : list byte) (len : Z) :
  wf b -> 0 <= len -> write_idx b + len <= INT_MAX ->
  write_copy b src len = spec_write_copy b src len.
Proof.
  intros H Hl Hno. unwf H. unfold write_copy, spec_write_copy, int_add, int_sub.
  unfold INT_MAX in *.
  rewrite !wrap_id by (unfold in_int, INT_MIN, INT_MAX; lia).
  reflexivity.
Qed.

Lemma read_copy_exact (b : ring_buffer) (dest : list byte) (len : Z) :
  wf b -> 0 <= len -> read_idx b + len <= INT_MAX ->
  read_copy b dest len = spec_read_copy b dest len.
Proof.
  intros H Hl Hno. unwf H. unfold read_copy, spec_read_copy, int_add, int_sub.
  unfold INT_MAX in *.
  rewrite !wrap_id by (unfold in_int, INT_MIN, INT_MAX; lia).
  reflexivity.
Qed.

(** A span whose end leaves the range of [int] is copied as one block,
    past the end of the array: undefined. *)
Lemma write_copy_overflow (b : ring_buffer) (src : list byte) (len : Z) :
  wf b -> 0 <= len <= INT_MAX -> INT_MAX < write_idx b + len ->
  write_copy b src len = None.
Proof.
  intros H Hl Hov. unwf H. unfold write_copy, int_add. unfold INT_MAX in *.
  rewrite wrap_above by (unfold INT_MAX; lia).
  destruct (_ <=? _) eqn:E; [|apply Z.leb_gt in E; lia].
  apply memcpy_beyond. lia.
Qed.

Lemma read_copy_overflow (b : ring_buffer) (dest : list byte) (len : Z) :
  wf b -> 0 <= len <= INT_MAX -> INT_MAX < read_idx b + len ->
  read_copy b dest len = None.
Proof.
  intros H Hl Hov. unwf H. unfold read_copy, int_add. unfold INT_MAX in *.
  rewrite wrap_above by (unfold INT_MAX; lia).
  destruct (_ <=? _) eqn:E; [|apply Z.leb_gt in E; lia].
  unfold memcpy.
  destruct (read_idx b + len <=? Z.of_nat (length (buf_ptr b))) eqn:E1;
    [apply Z.leb_le in E1; lia|].
  now rewrite !andb_false_r.
Qed.

Lemma spec_write_copy_length (b : ring_buffer) (src m : list byte) (len : Z) :
  spec_write_copy b src len = Some m -> length m = length (buf_ptr b).
Proof.
  unfold spec_write_copy. destruct (_ <=? _).
  - apply memcpy_length.
  - destruct (memcpy (buf_ptr b) _ _ _ _) as [m1|] eqn:E1; [|discriminate].
    intros E2. apply memcpy_length in E1, E2. congruence.
Qed.

(** Closed forms of the two cases of the write. *)
Lemma spec_write_copy_flat (b : ring_buffer) (src : list byte) (len : Z) :
  wf b -> 0 <= len -> write_idx b + len <= size b ->
  len <= Z.of_nat (length src) ->
  spec_write_copy b src len =
  Some (put (buf_ptr b) (Z.to_nat (write_idx b)) (firstn (Z.to_nat len) src)).
Proof.
  intros H Hl Hfit Hsrc. unwf H. unfold spec_write_copy.
  rewrite (proj2 (Z.leb_le _ _) Hfit).
  rewrite memcpy_defined by lia. reflexivity.
Qed.

Lemma spec_write_copy_split (b : ring_buffer) (src : list byte) (len : Z) :
  wf b -> size b < write_idx b + len -> len <= size b ->
  len <= Z.of_nat (length src) ->
  spec_write_copy b src len =
  Some (put (put (buf_ptr b) (Z.to_nat (write_idx b))
                 (firstn (Z.to_nat (size b - write_idx b)) src))
            0
            (firstn (Z.to_nat (len - (size b - write_idx b)))
                    (skipn (Z.to_nat (size b - write_idx b)) src))).
Proof.
  intros H Hfit Hl Hsrc. unwf H. unfold spec_write_copy.
  rewrite (proj2 (Z.leb_gt _ _) Hfit).
  rewrite memcpy_defined by lia.
  rewrite memcpy_defined;
    [reflexivity|lia|lia| |lia|lia].
  rewrite put_length; [lia|]. rewrite length_firstn. cbn [skipn]. lia.
Qed.

Lemma spec_read_copy_flat (b : ring_buffer) (dest : list byte) (len : Z) :
  wf b -> 0 <= len -> read_idx b + len <= size b ->
  len <= Z.of_nat (length dest) ->
  spec_read_copy b dest len =
  Some (put dest 0
            (firstn (Z.to_nat len) (skipn (Z.to_nat (read_idx b)) (buf_ptr b)))).
Proof.
  intros H Hl Hfit Hd. unwf H. unfold spec_read_copy.
  rewrite (proj2 (Z.leb_le _ _) Hfit).
  rewrite memcpy_defined by lia. reflexivity.
Qed.

Lemma spec_read_copy_split (b : ring_buffer) (dest : list byte) (len : Z) :
  wf b -> size b < read_idx b + len -> len <= size b ->
  len <= Z.of_nat (length dest) ->
  spec_read_copy b dest len =
  Some (put (put dest 0
                 (firstn (Z.to_nat (size b - read_idx b))
                         (skipn (Z.to_nat (read_idx b)) (buf_ptr b))))
            (Z.to_nat (size b - read_idx b))
            (firstn (Z.to_nat (len - (size b - read_idx b))) (buf_ptr b))).
Proof.
  intros H Hfit Hl Hd. unwf H. unfold spec_read_copy.
  rewrite (proj2 (Z.leb_gt _ _) Hfit).
  rewrite memcpy_defined by lia.
  rewrite memcpy_defined;
    [reflexivity|lia|lia| |lia|lia].
  rewrite put_length; [lia|].
  rewrite length_firstn, length_skipn. lia.
Qed.

(** ** Write and read, call by call *)

(** The three guards of [rb_write_to_buffer], then its body. *)
Lemma write_guards (b : ring_buffer) (src : list byte) (len av : Z) :
  rb_available_to_write (Some b) = Some av ->
  rb_write_to_buffer (Some b) src len =
  if len =? 0 then Some (0, Some b)
  else if (len <? 0) || (len >? av) then Some (-1, Some b)
  else
    do m <- write_copy b src len;
    do next <- int_rem (int_add (write_idx b) len) (size b);
    Some (0, Some {| size := size b; buf_ptr := m;
                     write_idx := next; read_idx := read_idx b |}).
Proof.
  intros Hav. unfold rb_write_to_buffer. rewrite Hav.
  destruct (len =? 0); [reflexivity|].
  destruct (len <? 0); [reflexivity|]. cbn [orb].
  destruct (len >? av); [reflexivity|].
  destruct (write_copy b src len) as [m|]; [|reflexivity].
  destruct (int_rem _ _) as [next|]; [|reflexivity].
  unfold set_write_idx, set_buf_ptr. cbn [write_idx size buf_ptr read_idx].
  now rewrite cas_same.
Qed.

Lemma read_guards (b : ring_buffer) (dest : list byte) (len av : Z) :
  rb_available_to_read (Some b) = Some av ->
  rb_read_from_buffer (Some b) dest len =
  if len =? 0 then Some (0, Some b, dest)
  else if (len <? 0) || (len >? av) then Some (-1, Some b, dest)
  else
    do out <- read_copy b dest len;
    do next <- int_rem (int_add (read_idx b) len) (size b);
    Some (0, Some {| size := size b; buf_ptr := buf_ptr b;
                     write_idx := write_idx b; read_idx := next |}, out).
Proof.
  intros Hav. unfold rb_read_from_buffer. rewrite Hav.
  destruct (len =? 0); [reflexivity|].
  destruct (len <? 0); [reflexivity|]. cbn [orb].
  destruct (len >? av); [reflexivity|].
  destruct (read_copy b dest len) as [out|]; [|reflexivity].
  destruct (int_rem _ _) as [next|]; [|reflexivity].
  unfold set_read_idx. now rewrite cas_same.
Qed.

(** A write that passes the guards and whose sums stay in the range of
    [int] copies as the specification says and advances the position. *)
Lemma write_accepts (b : ring_buffer) (src : list byte) (len : Z) :
  wf b -> 0 < len <= spec_available_to_write b ->
  size b + read_idx b - write_idx b - 1 <= INT_MAX ->
  write_idx b + len <= INT_MAX ->
  rb_write_to_buffer (Some b) src len =
  do m <- spec_write_copy b src len; Some (0, Some (after_write b m len)).
Proof.
  intros H Hl Hno1 Hno2. pose proof H as H0. unwf H.
  rewrite (write_guards b src len _ (available_to_write_exact b H0 Hno1)).
  destruct (len =? 0) eqn:E0; [lia|].
  destruct (len <? 0) eqn:E1; [lia|]. cbn [orb].
  destruct (len >? _) eqn:E2; [apply Z.gtb_lt in E2; lia|].
  rewrite write_copy_exact by (try assumption; lia).
  destruct (spec_write_copy b src len) as [m|]; [|reflexivity].
  unfold int_add. rewrite wrap_id by (unfold in_int, INT_MIN; lia).
  rewrite int_rem_pos by lia. reflexivity.
Qed.

Lemma read_accepts (b : ring_buffer) (dest : list byte) (len : Z) :
  wf b -> 0 < len <= spec_available_to_read b ->
  size b + write_idx b - read_idx b <= INT_MAX ->
  read_idx b + len <= INT_MAX ->
  rb_read_from_buffer (Some b) dest len =
  do out <- spec_read_copy b dest len; Some (0, Some (after_read b len), out).
Proof.
  intros H Hl Hno1 Hno2. pose proof H as H0. unwf H.
  rewrite (read_guards b dest len _ (available_to_read_exact b H0 Hno1)).
  destruct (len =? 0) eqn:E0; [lia|].
  destruct (len <? 0) eqn:E1; [lia|]. cbn [orb].
  destruct (len >? _) eqn:E2; [apply Z.gtb_lt in E2; lia|].
  rewrite read_copy_exact by (try assumption; lia).
  destruct (spec_read_copy b dest len) as [out|]; [|reflexivity].
  unfold int_add. rewrite wrap_id by (unfold in_int, INT_MIN; lia).
  rewrite int_rem_pos by lia. reflexivity.
Qed.

(** Every outcome of a write on a well-formed buffer, whatever its
    capacity: a refusal that changes nothing, or a copy as the
    specification says. *)
Lemma write_outcomes (b : ring_buffer) (src : list byte) (len rc : Z)
    (b' : option ring_buffer) :
  wf b -> rb_write_to_buffer (Some b) src len = Some (rc, b') ->
  (b' = Some b /\ (rc = 0 /\ len = 0 \/ rc = -1 /\ len <> 0))
  \/ (rc = 0 /\ 0 < len <= spec_available_to_write b
      /\ write_idx b + len <= INT_MAX
      /\ exists m, spec_write_copy b src len = Some m
                   /\ b' = Some (after_write b m len)).
Proof.
  intros H Hrun. pose proof H as H0. unwf H.
  destruct (available_to_write_defined b H0) as (av & Hav & Hle & Hpos).
  rewrite (write_guards b src len av Hav) in Hrun.
  destruct (len =? 0) eqn:E0.
  { injection Hrun as <- <-. left. split; [reflexivity|]. left; lia. }
  destruct ((len <? 0) || (len >? av)) eqn:E1.
  { injection Hrun as <- <-. left. split; [reflexivity|]. right; lia. }
  apply orb_false_iff in E1. destruct E1 as [E1 E2].
  assert (Hin : 0 < len <= av).
  { apply Z.ltb_ge in E1. rewrite Z.gtb_ltb in E2. apply Z.ltb_ge in E2.
    destruct (Z.eqb_spec len 0); [discriminate|lia]. }
  destruct (Hpos ltac:(lia)) as [-> Hno].
  assert (Hs : 0 <= spec_available_to_write b < size b)
    by (apply Z.mod_pos_bound; lia).
  destruct (Z_le_gt_dec (write_idx b + len) INT_MAX) as [Hno2|Hov].
  - right. rewrite write_copy_exact in Hrun by (try assumption; lia).
    destruct (spec_write_copy b src len) as [m|] eqn:Em; [|discriminate].
    unfold int_add in Hrun.
    rewrite wrap_id in Hrun by (unfold in_int, INT_MIN; lia).
    rewrite int_rem_pos in Hrun by lia.
    injection Hrun as <- <-. repeat split; try lia.
    exists m. split; reflexivity.
  - rewrite write_copy_overflow in Hrun by (try assumption; lia).
    discriminate.
Qed.

Lemma read_outcomes (b : ring_buffer) (dest out : list byte) (len rc : Z)
    (b' : option ring_buffer) :
  wf b -> rb_read_from_buffer (Some b) dest len = Some (rc, b', out) ->
  (b' = Some b /\ out = dest /\ (rc = 0 /\ len = 0 \/ rc = -1 /\ len <> 0))
  \/ (rc = 0 /\ 0 < len <= spec_available_to_read b
      /\ read_idx b + len <= INT_MAX
      /\ spec_read_copy b dest len = Some out
      /\ b' = Some (after_read b len)).
Proof.
  intros H Hrun. pose proof H as H0. unwf H.
  destruct (available_to_read_defined b H0) as (av & Hav & Hle & Hpos).
  rewrite (read_guards b dest len av Hav) in Hrun.
  destruct (len =? 0) eqn:E0.
  { injection Hrun as <- <- <-. left. repeat split. left; lia. }
  destruct ((len <? 0) || (len >? av)) eqn:E1.
  { injection Hrun as <- <- <-. left. repeat split. right; lia. }
  apply orb_false_iff in E1. destruct E1 as [E1 E2].
  assert (Hin : 0 < len <= av).
  { apply Z.ltb_ge in E1. rewrite Z.gtb_ltb in E2. apply Z.ltb_ge in E2.
    destruct (Z.eqb_spec len 0); [discriminate|lia]. }
  destruct (Hpos ltac:(lia)) as [-> Hno].
  assert (Hs : 0 <= spec_available_to_read b < size b)
    by (apply Z.mod_pos_bound; lia).
  destruct (Z_le_gt_dec (read_idx b + len) INT_MAX) as [Hno2|Hov].
  - right. rewrite read_copy_exact in Hrun by (try assumption; lia).
    destruct (spec_read_copy b dest len) as [o|] eqn:Em; [|discriminate].
    unfold int_add in Hrun.
    rewrite wrap_id in Hrun by (unfold in_int, INT_MIN; lia).
    rewrite int_rem_pos in Hrun by lia.
    injection Hrun as <- <- <-. repeat split; lia.
  - rewrite read_copy_overflow in Hrun by (try assumption; lia).
    discriminate.
Qed.

(** ** The invariant *)

Lemma after_write_wf (b : ring_buffer) (m : list byte) (len : Z) :
  wf b -> length m = length (buf_ptr b) -> wf (after_write b m len).
Proof.
  intros H Hm. unwf H. apply wf_iff. unfold after_write.
  cbn [size buf_ptr write_idx read_idx]. rewrite Hm.
  pose proof (Z.mod_pos_bound (write_idx b + len) (size b) ltac:(lia)).
  tauto.
Qed.

Lemma after_read_wf (b : ring_buffer) (len : Z) :
  wf b -> wf (after_read b len).
Proof.
  intros H. unwf H. apply wf_iff. unfold after_read.
  cbn [size buf_ptr write_idx read_idx].
  pose proof (Z.mod_pos_bound (read_idx b + len) (size b) ltac:(lia)).
  tauto.
Qed.

Lemma step_wf (b b' : ring_buffer) (o : op) :
  wf b -> step b o = Some b' -> wf b' /\ size b' = size b.
Proof.
  intros H Hs. destruct o as [src len|dest len]; cbn [step] in Hs.
  - destruct (rb_write_to_buffer (Some b) src len) as [[rc r]|] eqn:E;
      [|discriminate].
    cbn [snd] in Hs. subst r.
    destruct (write_outcomes b src len rc _ H E)
      as [[Hb _]|(_ & _ & _ & m & Hm & Hb)].
    + injection Hb as ->. tauto.
    + injection Hb as ->. split; [|reflexivity].
      apply after_write_wf; [exact H|].
      now apply spec_write_copy_length in Hm.
  - destruct (rb_read_from_buffer (Some b) dest len) as [[[rc r] out]|] eqn:E;
      [|discriminate].
    cbn [snd fst] in Hs. subst r.
    destruct (read_outcomes b dest out len rc _ H E)
      as [[Hb _]|(_ & _ & _ & _ & Hb)].
    + injection Hb as ->. tauto.
    + injection Hb as ->. split; [|reflexivity].
      now apply after_read_wf.
Qed.

Lemma run_wf (ops : list op) (b b' : ring_buffer) :
  wf b -> run b ops = Some b' -> wf b' /\ size b' = size b.
Proof.
  revert b; induction ops as [|o ops IH]; intros b H Hr; cbn [run] in Hr.
  - injection Hr as <-. tauto.
  - destruct (step b o) as [b1|] eqn:E; [|discriminate].
    destruct (step_wf b b1 o H E) as [H1 Hs1].
    destruct (IH b1 H1 Hr) as [H2 Hs2]. split; [exact H2|congruence].
Qed.

(** What [rb_create] returns is well formed, when the capacity is
    positive and the allocator keeps the promise of [calloc]. *)
Lemma create_inv (a : allocator) (c : Z) (b : ring_buffer) :
  rb_create a c = Some b ->
  c mod 256 = 0 /\ malloc_ok a = true
  /\ exists p, calloc a (to_size_t c) = Some p
               /\ b = {| size := c; buf_ptr := p;
                         write_idx := 0; read_idx := 0 |}.
Proof.
  unfold rb_create. rewrite int_and_255.
  destruct (c mod 256 =? 0) eqn:E; [|discriminate]. cbn [negb].
  destruct (malloc_ok a); [|discriminate]. cbn [negb].
  destruct (calloc a (to_size_t c)) as [p|] eqn:Ec; [|discriminate].
  intros [= <-]. apply Z.eqb_eq in E. split; [exact E|].
  split; [reflexivity|]. exists p. split; reflexivity.
Qed.

Lemma to_size_t_id (c : Z) : 0 <= c <= INT_MAX -> to_size_t c = c.
Proof. unfold to_size_t, INT_MAX. intros. apply Z.mod_small. lia. Qed.

Lemma create_wf (a : allocator) (c : Z) (b : ring_buffer) :
  calloc_spec a -> 0 < c <= INT_MAX -> rb_create a c = Some b ->
  wf b /\ size b = c /\ write_idx b = 0 /\ read_idx b = 0
  /\ buf_ptr b = repeat x00 (Z.to_nat c).
Proof.
  intros Ha Hc Hb. apply create_inv in Hb.
  destruct Hb as (Hal & _ & p & Hp & ->).
  rewrite to_size_t_id in Hp by lia. apply Ha in Hp. subst p.
  cbn [size write_idx read_idx buf_ptr]. repeat split.
  apply wf_iff. cbn [size write_idx read_idx buf_ptr].
  rewrite repeat_length. repeat split; lia.
Qed.

(** ** Capacities up to [2^30]: no sum overflows *)

Lemma small_sums (b : ring_buffer) :
  wf b -> small b ->
  size b + read_idx b - write_idx b - 1 <= INT_MAX
  /\ size b + write_idx b - read_idx b <= INT_MAX
  /\ (forall len, len <= size b ->
        write_idx b + len <= INT_MAX /\ read_idx b + len <= INT_MAX).
Proof.
  intros H Hs. unwf H. unfold small, INT_MAX in *.
  repeat split; intros; lia.
Qed.

Lemma small_available_to_write (b : ring_buffer) :
  wf b -> small b ->
  rb_available_to_write (Some b) = Some (spec_available_to_write b).
Proof.
  intros H Hs. apply available_to_write_exact; [exact H|].
  apply (small_sums b H Hs).
Qed.

Lemma small_available_to_read (b : ring_buffer) :
  wf b -> small b ->
  rb_available_to_read (Some b) = Some (spec_available_to_read b).
Proof.
  intros H Hs. apply available_to_read_exact; [exact H|].
  apply (small_sums b H Hs).
Qed.

Lemma spec_write_copy_defined (b : ring_buffer) (src : list byte) (len : Z) :
  wf b -> 0 <= len <= size b -> len <= Z.of_nat (length src) ->
  exists m, spec_write_copy b src len = Some m.
Proof.
  intros H Hl Hsrc.
  destruct (Z_le_gt_dec (write_idx b + len) (size b)) as [Hfit|Hcross].
  - eexists. apply spec_write_copy_flat; (assumption || lia).
  - eexists. apply spec_write_copy_split; (assumption || lia).
Qed.

Lemma spec_read_copy_defined (b : ring_buffer) (dest : list byte) (len : Z) :
  wf b -> 0 <= len <= size b -> len <= Z.of_nat (length dest) ->
  exists out, spec_read_copy b dest len = Some out.
Proof.
  intros H Hl Hd.
  destruct (Z_le_gt_dec (read_idx b + len) (size b)) as [Hfit|Hcross].
  - eexists. apply spec_read_copy_flat; (assumption || lia).
  - eexists. apply spec_read_copy_split; (assumption || lia).
Qed.

Lemma small_step_defined (b : ring_buffer) (o : op) :
  wf b -> small b -> op_fits o -> exists b', step b o = Some b'.
Proof.
  intros H Hs Ho. pose proof H as H0. unwf H.
  destruct (small_sums b H0 Hs) as (S1 & S2 & S3).
  destruct o as [src len|dest len]; cbn [step op_fits] in *.
  - rewrite (write_guards b src len _ (small_available_to_write b H0 Hs)).
    destruct (len =? 0); [eexists; reflexivity|].
    destruct ((len <? 0) || _) eqn:E; [eexists; reflexivity|].
    apply orb_false_iff in E. destruct E as [E1 E2].
    apply Z.ltb_ge in E1. rewrite Z.gtb_ltb in E2. apply Z.ltb_ge in E2.
    assert (Hb : 0 <= spec_available_to_write b < size b)
      by (apply Z.mod_pos_bound; lia).
    destruct (S3 len ltac:(lia)) as [S4 _].
    rewrite write_copy_exact by (assumption || lia).
    destruct (spec_write_copy_defined b src len H0 ltac:(lia) Ho) as [m ->].
    unfold int_add. rewrite wrap_id by (unfold in_int, INT_MIN; lia).
    rewrite int_rem_pos by lia. eexists; reflexivity.
  - rewrite (read_guards b dest len _ (small_available_to_read b H0 Hs)).
    destruct (len =? 0); [eexists; reflexivity|].
    destruct ((len <? 0) || _) eqn:E; [eexists; reflexivity|].
    apply orb_false_iff in E. destruct E as [E1 E2].
    apply Z.ltb_ge in E1. rewrite Z.gtb_ltb in E2. apply Z.ltb_ge in E2.
    assert (Hb : 0 <= spec_available_to_read b < size b)
      by (apply Z.mod_pos_bound; lia).
    destruct (S3 len ltac:(lia)) as [_ S4].
    rewrite read_copy_exact by (assumption || lia).
    destruct (spec_read_copy_defined b dest len H0 ltac:(lia) Ho) as [out ->].
    unfold int_add. rewrite wrap_id by (unfold in_int, INT_MIN; lia).
    rewrite int_rem_pos by lia. eexists; reflexivity.
Qed.

Lemma small_run_defined (ops : list op) (b : ring_buffer) :
  wf b -> small b -> Forall op_fits ops -> exists b', run b ops = Some b'.
Proof.
  revert b; induction ops as [|o ops IH]; intros b H Hs Hf; cbn [run].
  - eexists; reflexivity.
  - inversion Hf as [|? ? Ho Hf']; subst.
    destruct (small_step_defined b o H Hs Ho) as [b1 E]. rewrite E.
    destruct (step_wf b b1 o H E) as [H1 Hs1].
    apply IH; [exact H1| |exact Hf']. unfold small in *. lia.
Qed.

(** Conservation on the capacities up to [2^30]. *)
Lemma small_conservation (b : ring_buffer) :
  wf b -> small b ->
  exists r w, rb_available_to_read (Some b) = Some r
              /\ rb_available_to_write (Some b) = Some w
              /\ r + w = size b - 1.
Proof.
  intros H Hs. exists (spec_available_to_read b), (spec_available_to_write b).
  split; [now apply small_available_to_read|].
  split; [now apply small_available_to_write|].
  now apply spec_available_sum.
Qed.

(** ** Round trip through an empty buffer *)

Lemma put_put_zero {A : Type} (dest seg1 seg2 : list A) :
  put (put dest 0 seg1) (length seg1) seg2 =
  seg1 ++ seg2 ++ skipn (length seg1 + length seg2) dest.
Proof.
  rewrite put_zero. unfold put.
  rewrite firstn_app, firstn_all, Nat.sub_diag. cbn [firstn].
  rewrite app_nil_r. do 2 f_equal.
  rewrite skipn_app, skipn_all2 by lia. cbn [app].
  rewrite skipn_skipn. f_equal. lia.
Qed.

Lemma copy_round_trip (b : ring_buffer) (B dest m : list byte) :
  wf b -> is_empty b ->
  0 < Z.of_nat (length B) < size b ->
  (length B <= length dest)%nat ->
  spec_write_copy b B (Z.of_nat (length B)) = Some m ->
  spec_read_copy (after_write b m (Z.of_nat (length B))) dest
                 (Z.of_nat (length B))
  = Some (B ++ skipn (length B) dest).
Proof.
  intros H He HB Hd Hm. pose proof H as H0. unwf H.
  assert (Hm' : length m = length (buf_ptr b))
    by (now apply spec_write_copy_length in Hm).
  pose proof (after_write_wf b m (Z.of_nat (length B)) H0 Hm') as H1.
  unfold is_empty in He.
  destruct (Z_le_gt_dec (write_idx b + Z.of_nat (length B)) (size b))
    as [Hfit|Hcross].
  - rewrite spec_write_copy_flat in Hm by (assumption || lia).
    injection Hm as <-.
    rewrite spec_read_copy_flat;
      [|exact H1|lia|cbn [after_write read_idx size]; lia|lia].
    cbn [after_write read_idx buf_ptr]. rewrite <- He.
    rewrite Nat2Z.id, firstn_all, get_put by lia.
    reflexivity.
  - rewrite spec_write_copy_split in Hm by (assumption || lia).
    injection Hm as <-.
    rewrite spec_read_copy_split;
      [|exact H1|cbn [after_write read_idx size]; lia
       |cbn [after_write size]; lia|lia].
    cbn [after_write read_idx buf_ptr size]. rewrite <- He.
    set (d := Z.to_nat (size b - write_idx b)).
    set (p := Z.to_nat (write_idx b)).
    set (seg1 := firstn d B).
    set (seg2 := firstn (Z.to_nat (Z.of_nat (length B) - (size b - write_idx b)))
                        (skipn d B)).
    assert (L1 : length seg1 = d)
      by (unfold seg1; rewrite length_firstn; lia).
    assert (L2 : length seg2 = (length B - d)%nat)
      by (unfold seg2; rewrite length_firstn, length_skipn; lia).
    assert (E2 : seg2 = skipn d B).
    { unfold seg2. apply firstn_all2. rewrite length_skipn. lia. }
    rewrite skipn_put_zero by lia.
    rewrite skipn_put by lia.
    rewrite (skipn_all2 (buf_ptr b)) by lia. rewrite app_nil_r.
    rewrite (put_zero (put (buf_ptr b) p seg1) seg2), firstn_app.
    replace (Z.to_nat (Z.of_nat (length B) - (size b - write_idx b)))
      with (length seg2) by lia.
    rewrite firstn_all, Nat.sub_diag. cbn [firstn]. rewrite app_nil_r.
    rewrite <- L1 at 1. rewrite firstn_all.
    rewrite <- L1 at 1. rewrite put_put_zero.
    rewrite app_assoc, L1, L2. rewrite E2. unfold seg1.
    rewrite firstn_skipn. do 3 f_equal. lia.
Qed.

(** ** Symbolic calls

    A call whose sums stay in the range of [int], described by what it
    does to the positions: enough to follow a run on a storage that is too
    large to be written out. *)

Lemma write_moves (b : ring_buffer) (src : list byte) (len : Z) :
  wf b -> 0 < len <= spec_available_to_write b ->
  size b + read_idx b - write_idx b - 1 <= INT_MAX ->
  write_idx b + len <= INT_MAX ->
  len <= Z.of_nat (length src) ->
  exists b', step b (Write src len) = Some b'
             /\ wf b' /\ size b' = size b
             /\ write_idx b' = (write_idx b + len) mod size b
             /\ read_idx b' = read_idx b.
Proof.
  intros H Hl Hno1 Hno2 Hsrc. pose proof H as H0. unwf H.
  assert (Hs : 0 <= spec_available_to_write b < size b)
    by (apply Z.mod_pos_bound; lia).
  destruct (spec_write_copy_defined b src len H0 ltac:(lia) Hsrc) as [m Hm].
  exists (after_write b m len). cbn [step].
  rewrite write_accepts by assumption. rewrite Hm. cbn [snd].
  split; [reflexivity|]. split; [|repeat split].
  apply after_write_wf; [exact H0|]. now apply spec_write_copy_length in Hm.
Qed.

Lemma read_moves (b : ring_buffer) (dest : list byte) (len : Z) :
  wf b -> 0 < len <= spec_available_to_read b ->
  size b + write_idx b - read_idx b <= INT_MAX ->
  read_idx b + len <= INT_MAX ->
  len <= Z.of_nat (length dest) ->
  exists b', step b (Read dest len) = Some b'
             /\ wf b' /\ size b' = size b
             /\ write_idx b' = write_idx b
             /\ read_idx b' = (read_idx b + len) mod size b.
Proof.
  intros H Hl Hno1 Hno2 Hd. pose proof H as H0. unwf H.
  assert (Hs : 0 <= spec_available_to_read b < size b)
    by (apply Z.mod_pos_bound; lia).
  destruct (spec_read_copy_defined b dest len H0 ltac:(lia) Hd) as [out Hout].
  exists (after_read b len). cbn [step].
  rewrite read_accepts by assumption. rewrite Hout. cbn [snd fst].
  split; [reflexivity|]. split; [|repeat split].
  now apply after_read_wf.
Qed.

(** The same two lemmas with the positions given as numbers. *)
Lemma write_moves_at (b : ring_buffer) (src : list byte) (len s w r w' : Z) :
  wf b -> size b = s -> write_idx b = w -> read_idx b = r ->
  0 < len <= (s + r - w - 1) mod s ->
  s + r - w - 1 <= INT_MAX -> w + len <= INT_MAX ->
  Z.of_nat (length src) = len ->
  (w + len) mod s = w' ->
  exists b', step b (Write src len) = Some b'
             /\ wf b' /\ size b' = s /\ write_idx b' = w' /\ read_idx b' = r.
Proof.
  intros H <- <- <- Hl Hno1 Hno2 Hsrc <-.
  destruct (write_moves b src len H Hl Hno1 Hno2 ltac:(lia))
    as (b' & E & H' & Es & Ew & Er).
  exists b'. repeat split; assumption.
Qed.

Lemma read_moves_at (b : ring_buffer) (dest : list byte) (len s w r r' : Z) :
  wf b -> size b = s -> write_idx b = w -> read_idx b = r ->
  0 < len <= (s + w - r) mod s ->
  s + w - r <= INT_MAX -> r + len <= INT_MAX ->
  Z.of_nat (length dest) = len ->
  (r + len) mod s = r' ->
  exists b', step b (Read dest len) = Some b'
             /\ wf b' /\ size b' = s /\ write_idx b' = w /\ read_idx b' = r'.
Proof.
  intros H <- <- <- Hl Hno1 Hno2 Hd <-.
  destruct (read_moves b dest len H Hl Hno1 Hno2 ltac:(lia))
    as (b' & E & H' & Es & Ew & Er).
  exists b'. repeat split; assumption.
Qed.

Lemma run_cons (b b1 : ring_buffer) (o : op) (ops : list op) :
  step b o = Some b1 -> run b (o :: ops) = run b1 ops.
Proof. intros E. cbn [run]. now rewrite E. Qed.

Lemma repeat_Zlength (x : byte) (n : Z) :
  0 <= n -> Z.of_nat (length (repeat x (Z.to_nat n))) = n.
Proof. intros. rewrite repeat_length. lia. Qed.

(** ** The two scenarios of the specification *)

(** Capacity 256: 255 bytes can be written; after writing 255 bytes none
    can be written and 255 can be read; reading them gives the bytes
    written and leaves the buffer empty again. *)
Example scenario_fill_and_drain :
  let B := repeat x41 100 ++ repeat x42 155 in
  exists b0 b1 b2,
    rb_create libc 256 = Some b0
    /\ rb_available_to_write (Some b0) = Some 255
    /\ rb_write_to_buffer (Some b0) B 255 = Some (0, Some b1)
    /\ rb_available_to_write (Some b1) = Some 0
    /\ rb_available_to_read (Some b1) = Some 255
    /\ rb_read_from_buffer (Some b1) (repeat x00 255) 255
       = Some (0, Some b2, B)
    /\ rb_available_to_write (Some b2) = Some 255
    /\ rb_available_to_read (Some b2) = Some 0.
Proof.
  intros B. do 3 eexists.
  split; [reflexivity|]. split; [reflexivity|].
  split; [vm_compute; reflexivity|]. repeat split.
Qed.

(** Capacity 256: write 200 bytes, read 150, write 100 (the second write
    crosses the end of the storage); the 150 unread bytes come out in the
    order they were written, 50 of the first batch and then the second. *)
Example scenario_wrap :
  let first := repeat x41 150 ++ repeat x42 50 in
  let second := repeat x43 100 in
  exists b0 b1 b2 b3 b4,
    rb_create libc 256 = Some b0
    /\ rb_write_to_buffer (Some b0) first 200 = Some (0, Some b1)
    /\ rb_read_from_buffer (Some b1) (repeat x00 150) 150
       = Some (0, Some b2, repeat x41 150)
    /\ rb_write_to_buffer (Some b2) second 100 = Some (0, Some b3)
    /\ write_idx b3 = 44
    /\ rb_read_from_buffer (Some b3) (repeat x00 150) 150
       = Some (0, Some b4, repeat x42 50 ++ second).
Proof.
  intros first second. do 5 eexists.
  split; [reflexivity|].
  split; [vm_compute; reflexivity|].
  split; [vm_compute; reflexivity|].
  split; [vm_compute; reflexivity|].
  split; reflexivity.
Qed.

(** * The properties of the specification *)

Lemma libc_calloc_spec : calloc_spec libc.
Proof.
  intros n p. cbn [calloc libc]. destruct (n <=? _); [|discriminate].
  now intros [= <-].
Qed.

(** ** Round trip *)

(** C1, the claim as amended: for a null pointer or an empty buffer of a
    capacity up to 2^30, and every byte sequence [B] of length [L] with
    [L <= availableToWrite], write then read of [L] bytes both succeed and
    leave exactly [B] in [dest], also when the copy wraps around the end of
    the storage. *)
Theorem round_trip_empty (buffer : option ring_buffer) (B dest : list byte)
    (L av : Z) :
  empty_or_null buffer ->
  Z.of_nat (length B) = L -> L <= Z.of_nat (length dest) ->
  rb_available_to_write buffer = Some av -> L <= av ->
  round_trip buffer B dest L.
Proof.
  intros Hb HB Hd Hav HL. unfold round_trip.
  destruct (Z.eq_dec L 0) as [->|Hnz].
  { exists buffer, buffer, dest.
    destruct B; [|discriminate]. repeat split. }
  destruct buffer as [b|].
  2:{ cbn in Hav. injection Hav as <-. lia. }
  destruct Hb as (H & Hs & He). pose proof H as H0. unwf H.
  destruct (small_sums b H0 Hs) as (S1 & S2 & S3).
  rewrite small_available_to_write in Hav by assumption.
  injection Hav as <-.
  assert (Hbound : 0 <= spec_available_to_write b < size b)
    by (apply Z.mod_pos_bound; lia).
  destruct (spec_write_copy_defined b B L H0 ltac:(lia) ltac:(lia))
    as [m Hm].
  assert (Hm' : length m = length (buf_ptr b))
    by (now apply spec_write_copy_length in Hm).
  pose proof (after_write_wf b m L H0 Hm') as H1.
  exists (Some (after_write b m L)), (Some (after_read (after_write b m L) L)),
    (B ++ skipn (length B) dest).
  split; [|split].
  - rewrite write_accepts; [now rewrite Hm|exact H0|lia|lia|].
    apply (S3 L); lia.
  - assert (Ear : spec_available_to_read (after_write b m L) = L).
    { unfold spec_available_to_read, after_write, is_empty in *.
      cbn [size write_idx read_idx]. rewrite <- He.
      rewrite (Z.mod_eq (write_idx b + L) (size b)) by lia.
      replace (size b + _ - write_idx b)
        with (L + (1 - (write_idx b + L) / size b) * size b) by lia.
      rewrite Z.mod_add by lia. apply Z.mod_small; lia. }
    assert (Hs1 : small (after_write b m L)) by exact Hs.
    destruct (small_sums _ H1 Hs1) as (T1 & T2 & T3).
    rewrite read_accepts; [|exact H1|lia|exact T2|].
    + subst L. rewrite (copy_round_trip b B dest m);
        (assumption || lia || reflexivity).
    + apply (T3 L). cbn [after_write size]. lia.
  - subst L. rewrite Nat2Z.id, firstn_app, firstn_all, Nat.sub_diag.
    cbn [firstn]. apply app_nil_r.
Qed.

Lemma round_trip_empty_witness :
  empty_or_null (Some empty_at_200)
  /\ rb_available_to_write (Some empty_at_200) = Some 255
  /\ round_trip (Some empty_at_200) (repeat x42 100) (repeat x00 100) 100.
Proof.
  assert (He : empty_or_null (Some empty_at_200)).
  { split; [reflexivity|]. split; [unfold small; cbn; lia|reflexivity]. }
  split; [exact He|]. split; [reflexivity|].
  apply (round_trip_empty (Some empty_at_200) (repeat x42 100)
           (repeat x00 100) 100 255 He).
  - reflexivity.
  - cbn; lia.
  - reflexivity.
  - lia.
Defined.

(** C1, as stated, fails on a buffer that holds unread bytes: the read
    returns the oldest byte, not the one just written. *)
Lemma round_trip_counterexample :
  wf one_unread
  /\ rb_available_to_write (Some one_unread) = Some 254
  /\ ~ round_trip (Some one_unread) [x42] [x00] 1.
Proof.
  split; [reflexivity|]. split; [reflexivity|].
  intros (b1 & b2 & out & Hw & Hr & Hout).
  vm_compute in Hw. injection Hw as <-.
  vm_compute in Hr. injection Hr as <- <-.
  discriminate Hout.
Qed.

(** ** Conservation *)

(** On a capacity up to [2^30] the two queries add up to [capacity - 1]
    after every run of writes and reads, and every such run is defined. *)
Lemma conservation_up_to_2_30 (a : allocator) (c : Z) (b0 : ring_buffer)
    (ops : list op) :
  calloc_spec a -> 0 < c <= 1073741824 -> rb_create a c = Some b0 ->
  Forall op_fits ops ->
  exists b r w,
    run b0 ops = Some b
    /\ rb_available_to_read (Some b) = Some r
    /\ rb_available_to_write (Some b) = Some w
    /\ r + w = c - 1.
Proof.
  intros Ha Hc E0 Hf.
  destruct (create_wf a c b0 Ha ltac:(unfold INT_MAX; lia) E0)
    as (H0 & Hs0 & _).
  assert (Hsm : small b0) by (unfold small; lia).
  destruct (small_run_defined ops b0 H0 Hsm Hf) as [b E].
  destruct (run_wf ops b0 b H0 E) as [H Hs].
  destruct (small_conservation b H ltac:(unfold small in *; lia))
    as (r & w & Er & Ew & Esum).
  exists b, r, w. repeat split; (assumption || lia).
Qed.

(** The buffer [rb_create] returns from [libc] for a capacity of
    [2^30 + 256]. *)
Lemma create_2_30_256 :
  exists b0, rb_create libc 1073742080 = Some b0
             /\ wf b0 /\ size b0 = 1073742080
             /\ write_idx b0 = 0 /\ read_idx b0 = 0.
Proof.
  destruct (rb_create libc 1073742080) as [b0|] eqn:E.
  - exists b0. split; [reflexivity|].
    destruct (create_wf libc 1073742080 b0 libc_calloc_spec
                ltac:(unfold INT_MAX; lia) E) as (H & Hs & Hw & Hr & _).
    tauto.
  - exfalso. unfold rb_create in E. rewrite int_and_255 in E.
    change (1073742080 mod 256 =? 0) with true in E.
    cbn [negb libc malloc_ok calloc] in E.
    rewrite to_size_t_id in E by (unfold INT_MAX; lia).
    change (1073742080 <=? 9223372036854775807) with true in E.
    discriminate E.
Qed.

(** C2 at a capacity of [2^30 + 256]: after [rb_create] and one write of
    [capacity - 1] bytes, [rb_available_to_read] returns [-1073741057], the
    sum [capacity + write_idx - read_idx] having left the range of [int],
    and the two queries add up to [-1073741057], not to [capacity - 1]. *)
Theorem conservation_overflow (fill : byte) :
  exists b0 b1,
    rb_create libc 1073742080 = Some b0
    /\ run b0 [Write (repeat fill (Z.to_nat 1073742079)) 1073742079] = Some b1
    /\ rb_available_to_read (Some b1) = Some (-1073741057)
    /\ rb_available_to_write (Some b1) = Some 0
    /\ size b1 - 1 = 1073742079.
Proof.
  destruct create_2_30_256 as (b0 & E0 & H0 & Hs0 & Hw0 & Hr0).
  destruct (write_moves_at b0 (repeat fill (Z.to_nat 1073742079)) 1073742079
              1073742080 0 0 1073742079 H0 Hs0 Hw0 Hr0)
    as (b1 & E1 & H1 & Hs1 & Hw1 & Hr1).
  - split; [lia|]. apply Z.leb_le. vm_compute. reflexivity.
  - unfold INT_MAX; lia.
  - unfold INT_MAX; lia.
  - apply repeat_Zlength. lia.
  - vm_compute. reflexivity.
  - exists b0, b1. split; [exact E0|].
    split. { rewrite (run_cons _ _ _ _ E1). reflexivity. }
    rewrite available_to_read_unfold, available_to_write_unfold.
    rewrite Hs1, Hw1, Hr1. repeat split; try (vm_compute; reflexivity).
Qed.

(** ** Create validation *)

Lemma fresh_is_empty (p : list byte) (c : Z) :
  0 < c <= INT_MAX ->
  let b := {| size := c; buf_ptr := p; write_idx := 0; read_idx := 0 |} in
  rb_available_to_read (Some b) = Some 0
  /\ rb_available_to_write (Some b) = Some (c - 1).
Proof.
  intros Hc b. rewrite available_to_read_unfold, available_to_write_unfold.
  cbn [b size write_idx read_idx]. unfold INT_MAX in *.
  rewrite !wrap_id by (unfold in_int, INT_MIN, INT_MAX; lia).
  rewrite !int_rem_pos by lia. split; f_equal.
  - replace (c + 0 - 0) with (0 + 1 * c) by lia.
    rewrite Z.mod_add by lia. apply Z.mod_0_l; lia.
  - replace (c + 0 - 0 - 1) with (c - 1) by lia. apply Z.mod_small; lia.
Qed.

(** Where create validation holds: a capacity that is not a multiple of
    256 is refused; a capacity that is a positive multiple of 256 gives a
    buffer exactly when both allocations succeed, and that buffer is empty,
    with availableToRead = 0 and availableToWrite = capacity - 1. *)
Lemma create_checks_alignment (a : allocator) (c : Z) :
  in_int c -> create_contract a c.
Proof.
  intros Hc. unfold create_contract, positive_multiple. split.
  - intros Hm. unfold rb_create. rewrite int_and_255.
    destruct (c mod 256 =? 0) eqn:E; [apply Z.eqb_eq in E; lia|reflexivity].
  - intros Hp. apply andb_true_iff in Hp. destruct Hp as [Hpos Hm].
    apply Z.ltb_lt in Hpos. unfold in_int in Hc.
    assert (Hcreate : rb_create a c =
              if malloc_ok a
              then match calloc a c with
                   | Some p => Some {| size := c; buf_ptr := p;
                                       write_idx := 0; read_idx := 0 |}
                   | None => None
                   end
              else None).
    { unfold rb_create. rewrite int_and_255, Hm. cbn [negb].
      rewrite to_size_t_id by lia. now destruct (malloc_ok a). }
    split.
    + intros [Hmal Hcal]. rewrite Hmal in Hcreate.
      destruct (calloc a c) as [p|]; [|congruence].
      exists {| size := c; buf_ptr := p; write_idx := 0; read_idx := 0 |}.
      split; [exact Hcreate|]. apply fresh_is_empty. lia.
    + intros [Hmal|Hcal]; rewrite Hcreate.
      * now rewrite Hmal.
      * rewrite Hcal. now destruct (malloc_ok a).
Qed.

(** With [libc], which serves every request of a positive size and
    refuses those above [PTRDIFF_MAX], create validation holds as the
    specification states it at every [int] capacity other than 0: positive
    multiples of 256 give an empty buffer, everything else (negative
    multiples included, whose conversion to [size_t] is a request of more
    than [2^63] bytes) gives none. *)
Lemma create_validation_except_zero (c : Z) :
  in_int c -> c <> 0 -> create_validation libc c.
Proof.
  intros Hc Hnz. unfold create_validation.
  destruct (positive_multiple c) eqn:Ep.
  - destruct (create_checks_alignment libc c Hc) as [_ Hpos].
    apply (Hpos Ep). split; [reflexivity|].
    apply andb_true_iff in Ep. destruct Ep as [Ep _]. apply Z.ltb_lt in Ep.
    unfold in_int, INT_MAX in Hc. cbn [calloc libc].
    destruct (Z.leb_spec c 9223372036854775807); [discriminate|lia].
  - unfold positive_multiple in Ep. apply andb_false_iff in Ep.
    destruct Ep as [Ep|Ep].
    + apply Z.ltb_ge in Ep. unfold rb_create.
      destruct (negb _); [reflexivity|]. cbn [negb libc malloc_ok calloc].
      unfold in_int, INT_MIN in Hc. unfold to_size_t.
      replace c
        with ((c + 18446744073709551616) + (-1) * 18446744073709551616)
        by lia.
      rewrite Z.mod_add by lia. rewrite Z.mod_small by lia.
      destruct (Z.leb_spec (c + 18446744073709551616) 9223372036854775807);
        [lia|reflexivity].
    + apply Z.eqb_neq in Ep.
      apply (proj1 (create_checks_alignment libc c Hc)). exact Ep.
Qed.

(** C3 at a capacity of 0, with an allocator whose [calloc(0, 1)] returns
    a block: 0 is not a positive multiple of 256, yet [0 & 0xff] is 0, the
    alignment test passes and [rb_create] returns a buffer of capacity 0,
    where the claim says it returns none. On that buffer both queries, and
    every write and read of a nonzero length, compute [% buffer->size]
    with a size of 0: they are undefined. *)
Theorem create_zero_capacity (src dest : list byte) :
  positive_multiple 0 = false
  /\ ~ create_validation libc 0
  /\ rb_create libc 0 = Some zero_capacity
  /\ rb_available_to_write (Some zero_capacity) = None
  /\ rb_available_to_read (Some zero_capacity) = None
  /\ rb_write_to_buffer (Some zero_capacity) src 1 = None
  /\ rb_read_from_buffer (Some zero_capacity) dest 1 = None.
Proof.
  split; [reflexivity|]. split; [intros H; discriminate H|].
  repeat split.
Qed.

(** ** The formulas of the capacity queries *)

(** On a well-formed buffer of a capacity up to [2^30] the queries return
    the formulas of the specification; for a null pointer they return 0. *)
Lemma query_formulas_up_to_2_30 (b : ring_buffer) :
  wf b -> small b ->
  rb_available_to_write (Some b) = Some (spec_available_to_write b)
  /\ rb_available_to_read (Some b) = Some (spec_available_to_read b)
  /\ rb_available_to_write None = Some 0
  /\ rb_available_to_read None = Some 0.
Proof.
  intros H Hs. split; [now apply small_available_to_write|].
  split; [now apply small_available_to_read|]. split; reflexivity.
Qed.

(** C4 at a capacity of [2^30 + 256], with [capacity - 1] bytes unread:
    the formula of the specification gives [1073742079] bytes to read, and
    [rb_available_to_read] returns [-1073741057], whatever the storage
    holds. *)
Theorem available_to_read_overflow_at (storage : list byte) :
  let b := {| size := 1073742080; buf_ptr := storage;
              write_idx := 1073742079; read_idx := 0 |} in
  rb_available_to_read (Some b) = Some (-1073741057)
  /\ spec_available_to_read b = 1073742079
  /\ rb_available_to_write (Some b) = Some (spec_available_to_write b).
Proof. intros b. repeat split. Qed.

(** ** Failure conditions *)

Lemma write_fails_iff (buffer : option ring_buffer) (src : list byte)
    (len : Z) (buffer' : option ring_buffer) :
  len <> 0 ->
  (rb_write_to_buffer buffer src len = Some (-1, buffer') <->
   write_refused buffer len /\ buffer' = buffer).
Proof.
  intros Hnz. unfold write_refused, rb_write_to_buffer.
  destruct (Z.eqb_spec len 0) as [|_]; [contradiction|].
  destruct buffer as [b|].
  2:{ split; [intros [= <-]; tauto|intros [_ ->]; reflexivity]. }
  destruct (Z.ltb_spec len 0) as [Hneg|Hpos].
  { split; [intros [= <-]; tauto|intros [_ ->]; reflexivity]. }
  destruct (rb_available_to_write (Some b)) as [av|].
  2:{ split; [discriminate|].
      intros [[|[|(av & Hav & _)]] _]; (discriminate || lia). }
  rewrite Z.gtb_ltb. destruct (Z.ltb_spec av len) as [Hgt|Hle].
  { split; [intros [= <-]|intros [_ ->]; reflexivity].
    split; [|reflexivity]. right; right. exists av. tauto. }
  split.
  - destruct (write_copy b src len); [|discriminate].
    destruct (int_rem _ _); discriminate.
  - intros [[|[|(av' & [= <-] & Hav')]] _]; (discriminate || lia).
Qed.

Lemma read_fails_iff (buffer : option ring_buffer) (dest : list byte)
    (len : Z) (buffer' : option ring_buffer) (out : list byte) :
  len <> 0 ->
  (rb_read_from_buffer buffer dest len = Some (-1, buffer', out) <->
   read_refused buffer len /\ buffer' = buffer /\ out = dest).
Proof.
  intros Hnz. unfold read_refused, rb_read_from_buffer.
  destruct (Z.eqb_spec len 0) as [|_]; [contradiction|].
  destruct buffer as [b|].
  2:{ split; [intros [= <- <-]; tauto|intros (_ & -> & ->); reflexivity]. }
  destruct (Z.ltb_spec len 0) as [Hneg|Hpos].
  { split; [intros [= <- <-]; tauto|intros (_ & -> & ->); reflexivity]. }
  destruct (rb_available_to_read (Some b)) as [av|].
  2:{ split; [discriminate|].
      intros [[|[|(av & Hav & _)]] _]; (discriminate || lia). }
  rewrite Z.gtb_ltb. destruct (Z.ltb_spec av len) as [Hgt|Hle].
  { split; [intros [= <- <-]|intros (_ & -> & ->); reflexivity].
    split; [|split; reflexivity]. right; right. exists av. tauto. }
  split.
  - destruct (read_copy b dest len); [|discriminate].
    destruct (int_rem _ _); discriminate.
  - intros [[|[|(av' & [= <-] & Hav')]] _]; (discriminate || lia).
Qed.

(** C5: with a nonzero length, a write fails (returns -1) exactly when the
    buffer is absent, the length is negative or the length exceeds
    [rb_available_to_write]; a read, exactly when the buffer is absent, the
    length is negative or the length exceeds [rb_available_to_read]; and a
    failed call copies nothing: storage, positions and destination are the
    ones it was given. *)
Theorem failure_conditions (buffer : option ring_buffer)
    (src dest : list byte) (len : Z) :
  len <> 0 -> fails_when_refused buffer src dest len.
Proof.
  intros Hnz. unfold fails_when_refused. repeat split.
  - intros [buffer' H]. now apply (write_fails_iff _ _ _ _ Hnz) in H.
  - intros H. exists buffer. now apply (write_fails_iff _ _ _ _ Hnz).
  - intros buffer' H. now apply (write_fails_iff _ _ _ _ Hnz) in H.
  - intros (buffer' & out & H). now apply (read_fails_iff _ _ _ _ _ Hnz) in H.
  - intros H. exists buffer, dest. now apply (read_fails_iff _ _ _ _ _ Hnz).
  - now apply (read_fails_iff _ _ _ _ _ Hnz) in H.
  - now apply (read_fails_iff _ _ _ _ _ Hnz) in H.
Qed.

Lemma failure_conditions_witness :
  300 <> 0
  /\ fails_when_refused (Some empty_at_200) (repeat x42 300) (repeat x00 300)
       300.
Proof.
  assert (H : 300 <> 0) by lia.
  split; [exact H|]. apply (failure_conditions _ _ _ 300 H).
Defined.

(** ** The copy *)

(** C6 at a capacity of [2^30 + 256], both positions at [1073741569], for
    a write of [capacity - 1] bytes (which the guards let pass): the span
    ends after the end of the storage, so the specification asks for 511
    bytes at the tail and the rest at offset 0; [write_idx + len] is [2^31]
    and leaves the range of [int], the test [write_idx + len <= size]
    succeeds and the code copies one block of [len] bytes from
    [write_idx], past the end of the storage. *)
Theorem write_copy_overflow_at (storage src : list byte) :
  let b := {| size := 1073742080; buf_ptr := storage;
              write_idx := 1073741569; read_idx := 1073741569 |} in
  let len := 1073742079 in
  rb_available_to_write (Some b) = Some len
  /\ write_copy b src len = memcpy storage 1073741569 src 0 len
  /\ spec_write_copy b src len
     = (do m1 <- memcpy storage 1073741569 src 0 511;
        memcpy m1 0 src 511 1073741568)
  /\ rb_write_to_buffer (Some b) src len
     = (do m <- memcpy storage 1073741569 src 0 len;
        Some (0, Some {| size := 1073742080; buf_ptr := m;
                         write_idx := -1073741568;
                         read_idx := 1073741569 |})).
Proof.
  intros b len.
  assert (Hav : rb_available_to_write (Some b) = Some len) by reflexivity.
  split; [exact Hav|]. split; [reflexivity|]. split; [reflexivity|].
  rewrite (write_guards b src len len Hav).
  change (write_copy b src len) with (memcpy storage 1073741569 src 0 len).
  reflexivity.
Qed.

(** ** Zero length *)

(** C7: a write or a read of length 0 returns 0 at once, and the buffer
    afterwards is the buffer before: the storage, [rb_available_to_read]
    and [rb_available_to_write] are unchanged (and so is [dest]). *)
Theorem zero_length_noop (buffer : option ring_buffer) (src dest : list byte) :
  exists buffer1 buffer2,
    rb_write_to_buffer buffer src 0 = Some (0, buffer1)
    /\ rb_read_from_buffer buffer dest 0 = Some (0, buffer2, dest)
    /\ buffer1 = buffer /\ buffer2 = buffer
    /\ rb_available_to_read buffer1 = rb_available_to_read buffer
    /\ rb_available_to_write buffer1 = rb_available_to_write buffer
    /\ option_map buf_ptr buffer1 = option_map buf_ptr buffer
    /\ rb_available_to_read buffer2 = rb_available_to_read buffer
    /\ rb_available_to_write buffer2 = rb_available_to_write buffer
    /\ option_map buf_ptr buffer2 = option_map buf_ptr buffer.
Proof. exists buffer, buffer. repeat split. Qed.

(** ** The null pointer *)

(** C10: on a null pointer a call of length 0 returns 0, the length being
    tested before the pointer; every other length returns -1. *)
Theorem null_buffer_calls (src dest : list byte) (len : Z) :
  rb_write_to_buffer None src 0 = Some (0, None)
  /\ rb_read_from_buffer None dest 0 = Some (0, None, dest)
  /\ rb_write_to_buffer None src len
     = Some (if len =? 0 then 0 else -1, None)
  /\ rb_read_from_buffer None dest len
     = Some (if len =? 0 then 0 else -1, None, dest).
Proof.
  repeat split; unfold rb_write_to_buffer, rb_read_from_buffer;
    now destruct (len =? 0).
Qed.

(** ** The range of the positions *)

(** Whatever the capacity, the buffer a defined run ends in is well
    formed: both positions are in [[0, capacity)]. On a capacity up to
    [2^30] every run is defined. *)
Lemma positions_in_range (a : allocator) (c : Z) (b0 b : ring_buffer)
    (ops : list op) :
  calloc_spec a -> 0 < c <= INT_MAX -> rb_create a c = Some b0 ->
  run b0 ops = Some b ->
  size b = c /\ 0 <= write_idx b < c /\ 0 <= read_idx b < c.
Proof.
  intros Ha Hc E0 E.
  destruct (create_wf a c b0 Ha Hc E0) as (H0 & Hs0 & _).
  destruct (run_wf ops b0 b H0 E) as [H Hs]. unwf H.
  split; [congruence|]. split; congruence.
Qed.

Lemma positions_in_range_up_to_2_30 (a : allocator) (c : Z) (b0 : ring_buffer)
    (ops : list op) :
  calloc_spec a -> 0 < c <= 1073741824 -> rb_create a c = Some b0 ->
  Forall op_fits ops ->
  exists b, run b0 ops = Some b
            /\ size b = c /\ 0 <= write_idx b < c /\ 0 <= read_idx b < c.
Proof.
  intros Ha Hc E0 Hf.
  destruct (create_wf a c b0 Ha ltac:(unfold INT_MAX; lia) E0)
    as (H0 & Hs0 & _).
  destruct (small_run_defined ops b0 H0 ltac:(unfold small; lia) Hf) as [b E].
  exists b. split; [exact E|].
  apply (positions_in_range a c b0 b ops); (assumption || unfold INT_MAX; lia).
Qed.

(** C8 at a capacity of [2^30 + 256]: two writes and two reads bring both
    positions to [1073741569]; the guards then accept a write of
    [capacity - 1] bytes, whose [write_idx + len] is [2^31]. The call is
    undefined (it copies past the end of the storage), and the position it
    computes, [(write_idx + len) % size], is [-1073741568]. *)
Theorem position_overflow (fill : byte) :
  let bytes := fun n : Z => repeat fill (Z.to_nat n) in
  exists b0 b,
    rb_create libc 1073742080 = Some b0
    /\ run b0 [Write (bytes 1073741567) 1073741567;
               Read (bytes 1073741567) 1073741567;
               Write (bytes 2) 2; Read (bytes 2) 2] = Some b
    /\ write_idx b = 1073741569 /\ read_idx b = 1073741569
    /\ rb_available_to_write (Some b) = Some 1073742079
    /\ rb_write_to_buffer (Some b) (bytes 1073742079) 1073742079 = None
    /\ int_rem (int_add (write_idx b) 1073742079) (size b)
       = Some (-1073741568).
Proof.
  intros bytes.
  assert (Hbytes : forall n, 0 <= n -> Z.of_nat (length (bytes n)) = n)
    by (intros n Hn; apply repeat_Zlength; exact Hn).
  destruct create_2_30_256 as (b0 & E0 & H0 & Hs0 & Hw0 & Hr0).
  destruct (write_moves_at b0 (bytes 1073741567) 1073741567
              1073742080 0 0 1073741567 H0 Hs0 Hw0 Hr0)
    as (b1 & E1 & H1 & Hs1 & Hw1 & Hr1);
    [split; [lia|apply Z.leb_le; vm_compute; reflexivity]
    |unfold INT_MAX; lia|unfold INT_MAX; lia|apply Hbytes; lia
    |vm_compute; reflexivity|].
  destruct (read_moves_at b1 (bytes 1073741567) 1073741567
              1073742080 1073741567 0 1073741567 H1 Hs1 Hw1 Hr1)
    as (b2 & E2 & H2 & Hs2 & Hw2 & Hr2);
    [split; [lia|apply Z.leb_le; vm_compute; reflexivity]
    |unfold INT_MAX; lia|unfold INT_MAX; lia|apply Hbytes; lia
    |vm_compute; reflexivity|].
  destruct (write_moves_at b2 (bytes 2) 2
              1073742080 1073741567 1073741567 1073741569 H2 Hs2 Hw2 Hr2)
    as (b3 & E3 & H3 & Hs3 & Hw3 & Hr3);
    [split; [lia|apply Z.leb_le; vm_compute; reflexivity]
    |unfold INT_MAX; lia|unfold INT_MAX; lia|apply Hbytes; lia
    |vm_compute; reflexivity|].
  destruct (read_moves_at b3 (bytes 2) 2
              1073742080 1073741569 1073741567 1073741569 H3 Hs3 Hw3 Hr3)
    as (b4 & E4 & H4 & Hs4 & Hw4 & Hr4);
    [split; [lia|apply Z.leb_le; vm_compute; reflexivity]
    |unfold INT_MAX; lia|unfold INT_MAX; lia|apply Hbytes; lia
    |vm_compute; reflexivity|].
  assert (Hav : rb_available_to_write (Some b4) = Some 1073742079).
  { rewrite available_to_write_unfold, Hs4, Hw4, Hr4. reflexivity. }
  exists b0, b4. split; [exact E0|]. split.
  { rewrite (run_cons _ _ _ _ E1), (run_cons _ _ _ _ E2),
      (run_cons _ _ _ _ E3), (run_cons _ _ _ _ E4). reflexivity. }
  split; [exact Hw4|]. split; [exact Hr4|]. split; [exact Hav|]. split.
  - rewrite (write_guards b4 _ 1073742079 _ Hav).
    change (1073742079 =? 0) with false.
    change ((1073742079 <? 0) || (1073742079 >? 1073742079)) with false.
    cbv iota.
    rewrite write_copy_overflow; [reflexivity|exact H4| |].
    + unfold INT_MAX; lia.
    + rewrite Hw4. unfold INT_MAX; lia.
  - rewrite Hw4, Hs4. reflexivity.
Qed.

(** * More properties of the code *)

(** ** Rotations of a list *)

Lemma rot_length {A : Type} (k : nat) (l : list A) :
  length (rot k l) = length l.
Proof.
  unfold rot. rewrite length_app, length_skipn, length_firstn. lia.
Qed.

Lemma rot_zero {A : Type} (l : list A) : rot 0 l = l.
Proof. unfold rot. cbn [skipn firstn]. apply app_nil_r. Qed.

Lemma rot_full {A : Type} (l : list A) : rot (length l) l = l.
Proof. unfold rot. now rewrite skipn_all, firstn_all. Qed.

Lemma firstn_then {A : Type} (l : list A) (n m : nat) :
  firstn n l ++ firstn m (skipn n l) = firstn (n + m) l.
Proof.
  rewrite firstn_skipn_comm.
  rewrite <- (firstn_skipn n (firstn (n + m) l)) at 2.
  f_equal. rewrite firstn_firstn. f_equal. lia.
Qed.

Lemma rot_rot_below {A : Type} (a b : nat) (l : list A) :
  (a + b <= length l)%nat -> rot a (rot b l) = rot (a + b) l.
Proof.
  intros H. unfold rot.
  rewrite skipn_app, firstn_app, length_skipn.
  replace (a - (length l - b))%nat with 0%nat by lia.
  cbn [skipn firstn]. rewrite app_nil_r, skipn_skipn.
  rewrite <- app_assoc. replace (a + b)%nat with (b + a)%nat by lia.
  f_equal. apply firstn_then.
Qed.

Lemma rot_rot_above {A : Type} (a b : nat) (l : list A) :
  (a <= length l)%nat -> (b <= length l)%nat -> (length l <= a + b)%nat ->
  rot a (rot b l) = rot (a + b - length l) l.
Proof.
  intros Ha Hb H. unfold rot.
  rewrite skipn_app, firstn_app, length_skipn.
  rewrite (skipn_all2 (skipn b l)) by (rewrite length_skipn; lia).
  rewrite (firstn_all2 (skipn b l)) by (rewrite length_skipn; lia).
  cbn [app].
  replace (a - (length l - b))%nat with (a + b - length l)%nat by lia.
  set (k := (a + b - length l)%nat).
  rewrite firstn_firstn. replace (Nat.min k b) with k by lia.
  rewrite app_assoc. f_equal.
  rewrite <- (firstn_skipn b l) at 3.
  rewrite skipn_app, length_firstn.
  replace (k - Nat.min b (length l))%nat with 0%nat by lia.
  reflexivity.
Qed.

Lemma skipn_app_exact {A : Type} (l1 l2 : list A) (n : nat) :
  length l1 = n -> skipn n (l1 ++ l2) = l2.
Proof.
  intros <-. rewrite skipn_app, skipn_all, Nat.sub_diag. reflexivity.
Qed.

Lemma firstn_app_exact {A : Type} (l1 l2 : list A) (n : nat) :
  length l1 = n -> firstn n (l1 ++ l2) = l1.
Proof.
  intros <-. rewrite firstn_app, firstn_all, Nat.sub_diag. cbn [firstn].
  apply app_nil_r.
Qed.

Lemma skipn_app_left {A : Type} (l1 l2 : list A) (n : nat) :
  (n <= length l1)%nat -> skipn n (l1 ++ l2) = skipn n l1 ++ l2.
Proof.
  intros H. rewrite skipn_app. replace (n - length l1)%nat with 0%nat by lia.
  reflexivity.
Qed.

Lemma firstn_app_left {A : Type} (l1 l2 : list A) (n : nat) :
  (n <= length l1)%nat -> firstn n (l1 ++ l2) = firstn n l1.
Proof.
  intros H. rewrite firstn_app. replace (n - length l1)%nat with 0%nat by lia.
  cbn [firstn]. apply app_nil_r.
Qed.

(** ** A copy, seen from the position it starts at *)

Lemma write_in_rot (b : ring_buffer) (src m : list byte) (len : Z) :
  wf b -> 0 <= len <= size b -> len <= Z.of_nat (length src) ->
  spec_write_copy b src len = Some m ->
  rot (Z.to_nat (write_idx b)) m =
  firstn (Z.to_nat len) src
  ++ skipn (Z.to_nat len) (rot (Z.to_nat (write_idx b)) (buf_ptr b)).
Proof.
  intros H Hl Hsrc Hm. pose proof H as H0. unwf H.
  set (w := Z.to_nat (write_idx b)).
  destruct (Z_le_gt_dec (write_idx b + len) (size b)) as [Hfit|Hcross].
  - rewrite spec_write_copy_flat in Hm by (assumption || lia).
    injection Hm as <-. fold w.
    set (seg := firstn (Z.to_nat len) src).
    assert (Ls : length seg = Z.to_nat len)
      by (unfold seg; rewrite length_firstn; lia).
    unfold put, rot.
    rewrite (skipn_app_exact (firstn w (buf_ptr b))) by (rewrite length_firstn; lia).
    rewrite (firstn_app_exact (firstn w (buf_ptr b))) by (rewrite length_firstn; lia).
    rewrite (skipn_app_left (skipn w (buf_ptr b))) by (rewrite length_skipn; lia).
    rewrite skipn_skipn, Ls, <- !app_assoc.
    do 2 f_equal. f_equal. lia.
  - rewrite spec_write_copy_split in Hm by (assumption || lia).
    injection Hm as <-. fold w.
    set (d := Z.to_nat (size b - write_idx b)).
    set (seg1 := firstn d src).
    set (seg2 := firstn (Z.to_nat (len - (size b - write_idx b))) (skipn d src)).
    assert (L1 : length seg1 = d)
      by (unfold seg1; rewrite length_firstn; lia).
    assert (L2 : length seg2 = (Z.to_nat len - d)%nat)
      by (unfold seg2; rewrite length_firstn, length_skipn; lia).
    assert (Eseg : firstn (Z.to_nat len) src = seg1 ++ seg2).
    { unfold seg1, seg2. rewrite firstn_then. f_equal. lia. }
    assert (Ep : put (buf_ptr b) w seg1 = firstn w (buf_ptr b) ++ seg1).
    { unfold put. rewrite (skipn_all2 (buf_ptr b)) by lia.
      now rewrite app_nil_r. }
    rewrite Ep, put_zero, L2, Eseg.
    rewrite (skipn_app_left (firstn w (buf_ptr b))) by (rewrite length_firstn; lia).
    unfold rot.
    rewrite app_assoc.
    rewrite (skipn_app_exact (seg2 ++ skipn (Z.to_nat len - d) (firstn w (buf_ptr b))))
      by (rewrite length_app, length_skipn, length_firstn; lia).
    rewrite (firstn_app_exact (seg2 ++ skipn (Z.to_nat len - d) (firstn w (buf_ptr b))))
      by (rewrite length_app, length_skipn, length_firstn; lia).
    rewrite <- !app_assoc. do 2 f_equal.
    rewrite skipn_app.
    rewrite (skipn_all2 (skipn w (buf_ptr b))) by (rewrite length_skipn; lia).
    cbn [app]. rewrite length_skipn. f_equal. lia.
Qed.

Lemma read_in_rot (b : ring_buffer) (dest out : list byte) (len : Z) :
  wf b -> 0 <= len <= size b -> len <= Z.of_nat (length dest) ->
  spec_read_copy b dest len = Some out ->
  out = firstn (Z.to_nat len) (rot (Z.to_nat (read_idx b)) (buf_ptr b))
        ++ skipn (Z.to_nat len) dest.
Proof.
  intros H Hl Hd Hout. pose proof H as H0. unwf H.
  set (r := Z.to_nat (read_idx b)).
  destruct (Z_le_gt_dec (read_idx b + len) (size b)) as [Hfit|Hcross].
  - rewrite spec_read_copy_flat in Hout by (assumption || lia).
    injection Hout as <-. fold r. rewrite put_zero.
    unfold rot.
    rewrite (firstn_app_left (skipn r (buf_ptr b))) by (rewrite length_skipn; lia).
    rewrite length_firstn, length_skipn. do 2 f_equal. lia.
  - rewrite spec_read_copy_split in Hout by (assumption || lia).
    injection Hout as <-. fold r.
    set (d := Z.to_nat (size b - read_idx b)).
    set (s1 := firstn d (skipn r (buf_ptr b))).
    set (s2 := firstn (Z.to_nat (len - (size b - read_idx b))) (buf_ptr b)).
    assert (L1 : length s1 = d)
      by (unfold s1; rewrite length_firstn, length_skipn; lia).
    assert (L2 : length s2 = (Z.to_nat len - d)%nat)
      by (unfold s2; rewrite length_firstn; lia).
    rewrite <- L1 at 1. rewrite put_put_zero, L1, L2.
    rewrite app_assoc. f_equal; [|f_equal; lia].
    unfold rot. rewrite firstn_app, length_skipn.
    rewrite firstn_firstn.
    f_equal.
    + unfold s1. rewrite !firstn_all2; (reflexivity || rewrite length_skipn; lia).
    + unfold s2. f_equal. lia.
Qed.

(** ** Queue lemmas on lists *)

Lemma rot_by {A : Type} (l : list A) (r k w : nat) :
  (r <= length l)%nat -> (k <= length l)%nat -> (w <= length l)%nat ->
  (w = r + k \/ w + length l = r + k)%nat ->
  rot w l = rot k (rot r l).
Proof.
  intros Hr Hk Hw [E|E].
  - rewrite rot_rot_below by lia. f_equal. lia.
  - rewrite rot_rot_above by lia. f_equal. lia.
Qed.

Lemma fifo_append {A : Type} (buf m seg : list A) (r w n : nat) :
  length m = length buf ->
  (r <= length buf)%nat -> (w <= length buf)%nat ->
  (n + length seg <= length buf)%nat ->
  (w = r + n \/ w + length buf = r + n)%nat ->
  rot w m = seg ++ skipn (length seg) (rot w buf) ->
  firstn (n + length seg) (rot r m) = firstn n (rot r buf) ++ seg.
Proof.
  intros Lm Hr Hw Hn Hrel Hm.
  set (R := rot r buf).
  assert (LR : length R = length buf) by apply rot_length.
  assert (Ew : rot w buf = skipn n R ++ firstn n R).
  { rewrite (rot_by buf r n w) by lia. reflexivity. }
  assert (Er : rot r m = rot (length buf - n) (rot w m)).
  { apply rot_by; lia. }
  rewrite Er, Hm, Ew.
  rewrite (skipn_app_left (skipn n R)) by (rewrite length_skipn; lia).
  rewrite skipn_skipn, app_assoc.
  unfold rot at 1.
  rewrite (skipn_app_exact (seg ++ skipn (length seg + n) R))
    by (rewrite length_app, length_skipn; lia).
  rewrite (firstn_app_exact (seg ++ skipn (length seg + n) R) (firstn n R))
    by (rewrite length_app, length_skipn; lia).
  rewrite app_assoc. apply firstn_app_exact.
  rewrite length_app, length_firstn. lia.
Qed.

Lemma fifo_drop {A : Type} (buf : list A) (r r2 n k : nat) :
  (r <= length buf)%nat -> (r2 <= length buf)%nat ->
  (k <= n)%nat -> (n <= length buf)%nat ->
  (r2 = r + k \/ r2 + length buf = r + k)%nat ->
  firstn (n - k) (rot r2 buf) = skipn k (firstn n (rot r buf)).
Proof.
  intros Hr Hr2 Hk Hn Hrel.
  rewrite (rot_by buf r k r2) by lia.
  set (R := rot r buf).
  assert (LR : length R = length buf) by apply rot_length.
  unfold rot at 1.
  rewrite firstn_app_left by (rewrite length_skipn; lia).
  rewrite firstn_skipn_comm. do 2 f_equal. lia.
Qed.

(** ** Positions and counts after a call *)

Lemma mod_once (x s : Z) :
  0 < s -> 0 <= x < 2 * s -> x mod s = if x <? s then x else x - s.
Proof.
  intros Hs Hx. destruct (Z.ltb_spec x s).
  - apply Z.mod_small; lia.
  - replace x with ((x - s) + 1 * s) at 1 by lia.
    rewrite Z.mod_add by lia. apply Z.mod_small; lia.
Qed.

Lemma spec_available_cases (b : ring_buffer) :
  wf b ->
  (read_idx b <= write_idx b
   /\ spec_available_to_read b = write_idx b - read_idx b
   /\ spec_available_to_write b = size b - 1 - (write_idx b - read_idx b))
  \/ (write_idx b < read_idx b
      /\ spec_available_to_read b = size b + write_idx b - read_idx b
      /\ spec_available_to_write b = read_idx b - write_idx b - 1).
Proof.
  intros H. unwf H. unfold spec_available_to_read, spec_available_to_write.
  rewrite !mod_once by lia.
  destruct (Z_le_gt_dec (read_idx b) (write_idx b)); [left|right];
    repeat match goal with |- context [?x <? ?y] =>
             destruct (Z.ltb_spec x y) end; lia.
Qed.

Lemma after_write_position (b : ring_buffer) (m : list byte) (len : Z) :
  wf b -> 0 <= len <= spec_available_to_write b ->
  (write_idx (after_write b m len) = write_idx b + len
   \/ write_idx (after_write b m len) + size b = write_idx b + len)
  /\ spec_available_to_read (after_write b m len)
     = spec_available_to_read b + len
  /\ spec_available_to_write (after_write b m len)
     = spec_available_to_write b - len.
Proof.
  intros H Hl. unwf H.
  destruct (spec_available_cases b H) as [(C & Er & Ew)|(C & Er & Ew)];
    rewrite Er, Ew in *;
    unfold spec_available_to_read, spec_available_to_write, after_write;
    cbn [size write_idx read_idx];
    rewrite (mod_once (write_idx b + len)) by lia;
    destruct (Z.ltb_spec (write_idx b + len) (size b));
    rewrite !mod_once by lia;
    repeat match goal with |- context [?x <? ?y] =>
             destruct (Z.ltb_spec x y) end; lia.
Qed.

Lemma after_read_position (b : ring_buffer) (len : Z) :
  wf b -> 0 <= len <= spec_available_to_read b ->
  (read_idx (after_read b len) = read_idx b + len
   \/ read_idx (after_read b len) + size b = read_idx b + len)
  /\ spec_available_to_read (after_read b len)
     = spec_available_to_read b - len
  /\ spec_available_to_write (after_read b len)
     = spec_available_to_write b + len.
Proof.
  intros H Hl. unwf H.
  destruct (spec_available_cases b H) as [(C & Er & Ew)|(C & Er & Ew)];
    rewrite Er, Ew in *;
    unfold spec_available_to_read, spec_available_to_write, after_read;
    cbn [size write_idx read_idx];
    rewrite (mod_once (read_idx b + len)) by lia;
    destruct (Z.ltb_spec (read_idx b + len) (size b));
    rewrite !mod_once by lia;
    repeat match goal with |- context [?x <? ?y] =>
             destruct (Z.ltb_spec x y) end; lia.
Qed.

Lemma contents_length (b : ring_buffer) :
  wf b -> Z.of_nat (length (contents b)) = spec_available_to_read b.
Proof.
  intros H. unwf H. unfold contents.
  assert (Hs : 0 <= spec_available_to_read b < size b)
    by (apply Z.mod_pos_bound; lia).
  rewrite length_firstn, rot_length. lia.
Qed.

Lemma contents_after_write (b : ring_buffer) (src m : list byte) (len : Z) :
  wf b -> 0 <= len <= spec_available_to_write b ->
  len <= Z.of_nat (length src) ->
  spec_write_copy b src len = Some m ->
  contents (after_write b m len) = contents b ++ firstn (Z.to_nat len) src.
Proof.
  intros H Hl Hsrc Hm. pose proof H as H0. unwf H.
  destruct (after_write_position b m len H0 Hl) as (Hpos & Ear & _).
  assert (Hr' : 0 <= spec_available_to_read b < size b)
    by (apply Z.mod_pos_bound; lia).
  assert (Hw' : 0 <= spec_available_to_write b < size b)
    by (apply Z.mod_pos_bound; lia).
  pose proof (spec_available_sum b H0) as Hsum.
  pose proof (write_in_rot b src m len H0 ltac:(lia) Hsrc Hm) as Hrot.
  assert (Lm : length m = length (buf_ptr b))
    by (now apply spec_write_copy_length in Hm).
  unfold contents. rewrite Ear.
  cbn [after_write buf_ptr read_idx].
  set (seg := firstn (Z.to_nat len) src) in *.
  assert (Ls : length seg = Z.to_nat len)
    by (unfold seg; rewrite length_firstn; lia).
  replace (Z.to_nat (spec_available_to_read b + len))
    with (Z.to_nat (spec_available_to_read b) + length seg)%nat by lia.
  apply (fifo_append (buf_ptr b) m seg (Z.to_nat (read_idx b))
           (Z.to_nat (write_idx b))); try lia.
  - destruct (spec_available_cases b H0) as [(C & Er & Ew)|(C & Er & Ew)]; lia.
  - rewrite Ls. exact Hrot.
Qed.

Lemma contents_after_read (b : ring_buffer) (len : Z) :
  wf b -> 0 <= len <= spec_available_to_read b ->
  contents (after_read b len) = skipn (Z.to_nat len) (contents b).
Proof.
  intros H Hl. pose proof H as H0. unwf H.
  destruct (after_read_position b len H0 Hl) as (Hpos & Ear & _).
  assert (Hr' : 0 <= spec_available_to_read b < size b)
    by (apply Z.mod_pos_bound; lia).
  pose proof (after_read_wf b len H0) as H1. unwf H1.
  unfold contents. rewrite Ear.
  cbn [after_read buf_ptr] in *.
  replace (Z.to_nat (spec_available_to_read b - len))
    with (Z.to_nat (spec_available_to_read b) - Z.to_nat len)%nat by lia.
  apply fifo_drop; lia.
Qed.

(** ** Accepted calls on capacities up to [2^30] *)

Lemma small_write_accepted (b : ring_buffer) (src : list byte) (len av : Z) :
  wf b -> small b -> rb_available_to_write (Some b) = Some av ->
  0 < len <= av -> len <= Z.of_nat (length src) ->
  exists m, spec_write_copy b src len = Some m
            /\ rb_write_to_buffer (Some b) src len
               = Some (0, Some (after_write b m len))
            /\ wf (after_write b m len)
            /\ 0 < len <= spec_available_to_write b.
Proof.
  intros H Hs Hav Hl Hsrc. pose proof H as H0. unwf H.
  rewrite small_available_to_write in Hav by assumption. injection Hav as <-.
  destruct (small_sums b H0 Hs) as (S1 & S2 & S3).
  assert (Hb : 0 <= spec_available_to_write b < size b)
    by (apply Z.mod_pos_bound; lia).
  destruct (spec_write_copy_defined b src len H0 ltac:(lia) Hsrc) as [m Hm].
  exists m. split; [exact Hm|]. split.
  - rewrite write_accepts; [now rewrite Hm|exact H0|lia|exact S1|].
    apply (S3 len); lia.
  - split; [|lia]. apply after_write_wf; [exact H0|].
    now apply spec_write_copy_length in Hm.
Qed.

Lemma small_read_accepted (b : ring_buffer) (dest : list byte) (len av : Z) :
  wf b -> small b -> rb_available_to_read (Some b) = Some av ->
  0 < len <= av -> len <= Z.of_nat (length dest) ->
  rb_read_from_buffer (Some b) dest len
  = Some (0, Some (after_read b len),
          firstn (Z.to_nat len) (contents b) ++ skipn (Z.to_nat len) dest)
  /\ wf (after_read b len)
  /\ 0 < len <= spec_available_to_read b.
Proof.
  intros H Hs Hav Hl Hd. pose proof H as H0. unwf H.
  rewrite small_available_to_read in Hav by assumption. injection Hav as <-.
  destruct (small_sums b H0 Hs) as (S1 & S2 & S3).
  assert (Hb : 0 <= spec_available_to_read b < size b)
    by (apply Z.mod_pos_bound; lia).
  destruct (spec_read_copy_defined b dest len H0 ltac:(lia) Hd) as [out Hout].
  split; [|split; [now apply after_read_wf|lia]].
  rewrite read_accepts; [|exact H0|lia|exact S2|apply (S3 len); lia].
  rewrite Hout. do 3 f_equal.
  rewrite (read_in_rot b dest out len H0 ltac:(lia) Hd Hout).
  f_equal. unfold contents. rewrite firstn_firstn. f_equal. lia.
Qed.

(** X1: on a capacity up to [2^30], a write of [len] bytes with
    [0 < len <= rb_available_to_write] (and [src] holding that many)
    returns 0 and appends the first [len] bytes of [src] to the unread
    bytes: what was unread before is still there, in the same order, and
    the new bytes follow it. *)
Theorem write_appends (b : ring_buffer) (src : list byte) (len av : Z) :
  wf b -> small b -> rb_available_to_write (Some b) = Some av ->
  0 < len <= av -> len <= Z.of_nat (length src) ->
  exists b',
    rb_write_to_buffer (Some b) src len = Some (0, Some b')
    /\ wf b'
    /\ contents b' = contents b ++ firstn (Z.to_nat len) src.
Proof.
  intros H Hs Hav Hl Hsrc.
  destruct (small_write_accepted b src len av H Hs Hav Hl Hsrc)
    as (m & Hm & Hrun & Hwf & Hl').
  exists (after_write b m len). split; [exact Hrun|]. split; [exact Hwf|].
  apply contents_after_write; (assumption || lia).
Qed.

Lemma write_appends_witness :
  exists b',
    rb_write_to_buffer (Some one_unread) [x42; x43] 2 = Some (0, Some b')
    /\ wf b'
    /\ contents b' = contents one_unread ++ firstn (Z.to_nat 2) [x42; x43].
Proof.
  apply (write_appends one_unread [x42; x43] 2 254).
  - reflexivity.
  - unfold small; cbn; lia.
  - reflexivity.
  - lia.
  - cbn; lia.
Defined.

(** X2: on a capacity up to [2^30], a read of [len] bytes with
    [0 < len <= rb_available_to_read] (and [dest] holding that many)
    returns 0, puts the [len] oldest unread bytes at the start of [dest],
    leaves the rest of [dest] as it was, and removes exactly those bytes
    from the unread bytes. *)
Theorem read_takes_oldest (b : ring_buffer) (dest : list byte) (len av : Z) :
  wf b -> small b -> rb_available_to_read (Some b) = Some av ->
  0 < len <= av -> len <= Z.of_nat (length dest) ->
  exists b',
    rb_read_from_buffer (Some b) dest len
    = Some (0, Some b',
            firstn (Z.to_nat len) (contents b) ++ skipn (Z.to_nat len) dest)
    /\ wf b'
    /\ contents b' = skipn (Z.to_nat len) (contents b).
Proof.
  intros H Hs Hav Hl Hd.
  destruct (small_read_accepted b dest len av H Hs Hav Hl Hd)
    as (Hrun & Hwf & Hl').
  exists (after_read b len). split; [exact Hrun|]. split; [exact Hwf|].
  apply contents_after_read; (assumption || lia).
Qed.

Lemma read_takes_oldest_witness :
  exists b',
    rb_read_from_buffer (Some wrapped_two) [x00; x00; x00] 2
    = Some (0, Some b',
            firstn (Z.to_nat 2) (contents wrapped_two)
            ++ skipn (Z.to_nat 2) [x00; x00; x00])
    /\ wf b'
    /\ contents b' = skipn (Z.to_nat 2) (contents wrapped_two).
Proof.
  apply (read_takes_oldest wrapped_two [x00; x00; x00] 2 2).
  - reflexivity.
  - unfold small; cbn; lia.
  - reflexivity.
  - lia.
  - cbn; lia.
Defined.

(** ** How the counts move *)

(** X6: on a capacity up to [2^30], an accepted write of [len]
    bytes lowers [rb_available_to_write] by [len] and raises
    [rb_available_to_read] by [len]. *)
Theorem write_moves_availability (b : ring_buffer) (src : list byte)
    (len aw ar : Z) :
  wf b -> small b ->
  rb_available_to_write (Some b) = Some aw ->
  rb_available_to_read (Some b) = Some ar ->
  0 < len <= aw -> len <= Z.of_nat (length src) ->
  exists b',
    rb_write_to_buffer (Some b) src len = Some (0, Some b')
    /\ rb_available_to_write (Some b') = Some (aw - len)
    /\ rb_available_to_read (Some b') = Some (ar + len).
Proof.
  intros H Hs Haw Har Hl Hsrc.
  destruct (small_write_accepted b src len aw H Hs Haw Hl Hsrc)
    as (m & Hm & Hrun & Hwf & Hl').
  exists (after_write b m len). split; [exact Hrun|].
  assert (Hs' : small (after_write b m len)) by exact Hs.
  rewrite small_available_to_write, small_available_to_read by assumption.
  rewrite small_available_to_write in Haw by assumption.
  rewrite small_available_to_read in Har by assumption.
  injection Haw as <-. injection Har as <-.
  destruct (after_write_position b m len H ltac:(lia)) as (_ & -> & ->).
  split; reflexivity.
Qed.

Lemma write_moves_availability_witness :
  exists b',
    rb_write_to_buffer (Some one_unread) [x42; x43] 2 = Some (0, Some b')
    /\ rb_available_to_write (Some b') = Some (254 - 2)
    /\ rb_available_to_read (Some b') = Some (1 + 2).
Proof.
  apply (write_moves_availability one_unread [x42; x43] 2 254 1).
  - reflexivity.
  - unfold small; cbn; lia.
  - reflexivity.
  - reflexivity.
  - lia.
  - cbn; lia.
Defined.

(** X7: on a capacity up to [2^30], an accepted read of [len]
    bytes raises [rb_available_to_write] by [len] and lowers
    [rb_available_to_read] by [len]. *)
Theorem read_moves_availability (b : ring_buffer) (dest : list byte)
    (len aw ar : Z) :
  wf b -> small b ->
  rb_available_to_write (Some b) = Some aw ->
  rb_available_to_read (Some b) = Some ar ->
  0 < len <= ar -> len <= Z.of_nat (length dest) ->
  exists b' out,
    rb_read_from_buffer (Some b) dest len = Some (0, Some b', out)
    /\ rb_available_to_write (Some b') = Some (aw + len)
    /\ rb_available_to_read (Some b') = Some (ar - len).
Proof.
  intros H Hs Haw Har Hl Hd.
  destruct (small_read_accepted b dest len ar H Hs Har Hl Hd)
    as (Hrun & Hwf & Hl').
  eexists (after_read b len), _. split; [exact Hrun|].
  assert (Hs' : small (after_read b len)) by exact Hs.
  rewrite small_available_to_write, small_available_to_read by assumption.
  rewrite small_available_to_write in Haw by assumption.
  rewrite small_available_to_read in Har by assumption.
  injection Haw as <-. injection Har as <-.
  destruct (after_read_position b len H ltac:(lia)) as (_ & -> & ->).
  split; reflexivity.
Qed.

Lemma read_moves_availability_witness :
  exists b' out,
    rb_read_from_buffer (Some wrapped_two) [x00; x00] 1
    = Some (0, Some b', out)
    /\ rb_available_to_write (Some b') = Some (253 + 1)
    /\ rb_available_to_read (Some b') = Some (2 - 1).
Proof.
  apply (read_moves_availability wrapped_two [x00; x00] 1 253 2).
  - reflexivity.
  - unfold small; cbn; lia.
  - reflexivity.
  - reflexivity.
  - lia.
  - cbn; lia.
Defined.

(** ** Bounds of the queries *)

(** X8: on a well-formed buffer of any capacity both queries are
    defined, [rb_available_to_read] never returns more than the number of
    unread bytes, and [rb_available_to_write] never returns more than the
    free space, [capacity - 1] minus the unread bytes. (Above [2^30] they
    can return less, never more.) *)
Theorem queries_never_over_report (b : ring_buffer) :
  wf b ->
  exists aw ar,
    rb_available_to_write (Some b) = Some aw
    /\ rb_available_to_read (Some b) = Some ar
    /\ ar <= Z.of_nat (length (contents b)) <= size b - 1
    /\ aw <= size b - 1 - Z.of_nat (length (contents b)).
Proof.
  intros H. pose proof H as H0. unwf H.
  destruct (available_to_write_defined b H0) as (aw & Haw & Lw & _).
  destruct (available_to_read_defined b H0) as (ar & Har & Lr & _).
  exists aw, ar. rewrite contents_length by exact H0.
  pose proof (spec_available_sum b H0) as Hsum.
  pose proof (Z.mod_pos_bound (size b + write_idx b - read_idx b)
                (size b) ltac:(lia)).
  unfold spec_available_to_write, spec_available_to_read in *.
  repeat split; (assumption || lia).
Qed.

Lemma queries_never_over_report_witness :
  exists aw ar,
    rb_available_to_write (Some wrapped_two) = Some aw
    /\ rb_available_to_read (Some wrapped_two) = Some ar
    /\ ar <= Z.of_nat (length (contents wrapped_two)) <= size wrapped_two - 1
    /\ aw <= size wrapped_two - 1 - Z.of_nat (length (contents wrapped_two)).
Proof. apply (queries_never_over_report wrapped_two). reflexivity. Defined.

(** X9: a well-formed buffer of any capacity refuses a write and a
    read of [capacity] bytes or more: both return -1 and change nothing.
    At most [capacity - 1] bytes are ever held. *)
Theorem capacity_minus_one (b : ring_buffer) (src dest : list byte) (len : Z) :
  wf b -> size b <= len ->
  rb_write_to_buffer (Some b) src len = Some (-1, Some b)
  /\ rb_read_from_buffer (Some b) dest len = Some (-1, Some b, dest).
Proof.
  intros H Hl. pose proof H as H0. unwf H.
  destruct (available_to_write_defined b H0) as (aw & Haw & Lw & _).
  destruct (available_to_read_defined b H0) as (ar & Har & Lr & _).
  pose proof (Z.mod_pos_bound (size b + read_idx b - write_idx b - 1)
                (size b) ltac:(lia)).
  pose proof (Z.mod_pos_bound (size b + write_idx b - read_idx b)
                (size b) ltac:(lia)).
  unfold spec_available_to_write, spec_available_to_read in *.
  rewrite (write_guards b src len aw Haw), (read_guards b dest len ar Har).
  destruct (Z.eqb_spec len 0); [lia|].
  destruct (Z.ltb_spec len 0); [lia|]. cbn [orb].
  rewrite !Z.gtb_ltb.
  destruct (Z.ltb_spec aw len); [|lia].
  destruct (Z.ltb_spec ar len); [|lia].
  split; reflexivity.
Qed.

Lemma capacity_minus_one_witness :
  rb_write_to_buffer (Some empty_at_200) (repeat x41 256) 256
  = Some (-1, Some empty_at_200)
  /\ rb_read_from_buffer (Some empty_at_200) (repeat x00 256) 256
     = Some (-1, Some empty_at_200, repeat x00 256).
Proof.
  apply (capacity_minus_one empty_at_200 (repeat x41 256) (repeat x00 256) 256).
  - reflexivity.
  - cbn; lia.
Defined.

(** ** Empty and full *)

(** X10: on an empty well-formed buffer of any capacity
    [rb_available_to_read] returns 0 and every read of a nonzero length
    returns -1, leaving the buffer and [dest] as they were. *)
Theorem empty_refuses_read (b : ring_buffer) (dest : list byte) (len : Z) :
  wf b -> is_empty b -> len <> 0 ->
  rb_available_to_read (Some b) = Some 0
  /\ rb_read_from_buffer (Some b) dest len = Some (-1, Some b, dest).
Proof.
  intros H He Hl. pose proof H as H0. unwf H. unfold is_empty in He.
  assert (Hav : rb_available_to_read (Some b) = Some 0).
  { rewrite available_to_read_exact by (assumption || lia).
    unfold spec_available_to_read. rewrite He.
    replace (size b + read_idx b - read_idx b) with (0 + 1 * size b) by lia.
    rewrite Z.mod_add by lia. now rewrite Z.mod_0_l by lia. }
  split; [exact Hav|].
  rewrite (read_guards b dest len 0 Hav).
  destruct (Z.eqb_spec len 0); [contradiction|].
  rewrite Z.gtb_ltb.
  destruct (Z.ltb_spec len 0); [reflexivity|].
  destruct (Z.ltb_spec 0 len); [reflexivity|lia].
Qed.

Lemma empty_refuses_read_witness :
  rb_available_to_read (Some empty_at_200) = Some 0
  /\ rb_read_from_buffer (Some empty_at_200) [x00] 1
     = Some (-1, Some empty_at_200, [x00]).
Proof.
  apply (empty_refuses_read empty_at_200 [x00] 1).
  - reflexivity.
  - reflexivity.
  - lia.
Defined.

(** X11: on a full well-formed buffer of any capacity (the write
    position one slot behind the read position) [rb_available_to_write]
    returns 0 and every write of a nonzero length returns -1, leaving the
    buffer as it was. *)
Theorem full_refuses_write (b : ring_buffer) (src : list byte) (len : Z) :
  wf b -> is_full b -> len <> 0 ->
  rb_available_to_write (Some b) = Some 0
  /\ rb_write_to_buffer (Some b) src len = Some (-1, Some b).
Proof.
  intros H Hf Hl. pose proof H as H0. unwf H. unfold is_full in Hf.
  rewrite mod_once in Hf by lia.
  assert (Hav : rb_available_to_write (Some b) = Some 0).
  { destruct (Z.ltb_spec (write_idx b + 1) (size b)).
    - rewrite available_to_write_exact by (assumption || lia).
      unfold spec_available_to_write. rewrite <- Hf.
      replace (size b + (write_idx b + 1) - write_idx b - 1)
        with (0 + 1 * size b) by lia.
      rewrite Z.mod_add by lia. now rewrite Z.mod_0_l by lia.
    - rewrite available_to_write_exact by (assumption || unfold INT_MAX; lia).
      unfold spec_available_to_write. rewrite <- Hf.
      replace (size b + (write_idx b + 1 - size b) - write_idx b - 1)
        with 0 by lia.
      now rewrite Z.mod_0_l by lia. }
  split; [exact Hav|].
  rewrite (write_guards b src len 0 Hav).
  destruct (Z.eqb_spec len 0); [contradiction|].
  rewrite Z.gtb_ltb.
  destruct (Z.ltb_spec len 0); [reflexivity|].
  destruct (Z.ltb_spec 0 len); [reflexivity|lia].
Qed.

Lemma full_refuses_write_witness :
  rb_available_to_write (Some full_256) = Some 0
  /\ rb_write_to_buffer (Some full_256) [x42] 1 = Some (-1, Some full_256).
Proof.
  apply (full_refuses_write full_256 [x42] 1).
  - reflexivity.
  - reflexivity.
  - lia.
Defined.

(** ** What a call leaves alone *)

Lemma write_copy_length (b : ring_buffer) (src m : list byte) (len : Z) :
  write_copy b src len = Some m -> length m = length (buf_ptr b).
Proof.
  unfold write_copy. destruct (_ <=? _).
  - apply memcpy_length.
  - destruct (memcpy (buf_ptr b) _ _ _ _) as [m1|] eqn:E1; [|discriminate].
    intros E2. apply memcpy_length in E1, E2. congruence.
Qed.

Lemma read_copy_length (b : ring_buffer) (dest out : list byte) (len : Z) :
  read_copy b dest len = Some out -> length out = length dest.
Proof.
  unfold read_copy. destruct (_ <=? _).
  - apply memcpy_length.
  - destruct (memcpy dest _ _ _ _) as [o1|] eqn:E1; [|discriminate].
    intros E2. apply memcpy_length in E1, E2. congruence.
Qed.

(** X12: whatever the buffer, a write that returns, returns 0 or
    -1 and leaves the capacity, the read position and the length of the
    storage as they were: the producer never moves the consumer's
    position. *)
Theorem write_frame (b : ring_buffer) (src : list byte) (len rc : Z)
    (buffer' : option ring_buffer) :
  rb_write_to_buffer (Some b) src len = Some (rc, buffer') ->
  (rc = 0 \/ rc = -1)
  /\ exists b', buffer' = Some b'
       /\ size b' = size b /\ read_idx b' = read_idx b
       /\ length (buf_ptr b') = length (buf_ptr b).
Proof.
  unfold rb_write_to_buffer.
  destruct (len =? 0); [intros [= <- <-]; split; [tauto|]; now exists b|].
  destruct (len <? 0); [intros [= <- <-]; split; [tauto|]; now exists b|].
  destruct (rb_available_to_write (Some b)) as [av|]; [|discriminate].
  destruct (len >? av); [intros [= <- <-]; split; [tauto|]; now exists b|].
  destruct (write_copy b src len) as [m|] eqn:Em; [|discriminate].
  destruct (int_rem _ _) as [next|]; [|discriminate].
  intros [= <- <-]. split; [tauto|]. eexists. split; [reflexivity|].
  cbn [set_write_idx set_buf_ptr size read_idx buf_ptr].
  repeat split. now apply write_copy_length in Em.
Qed.

Lemma write_frame_witness :
  (0 = 0 \/ 0 = -1)
  /\ exists b', Some (set_write_idx (set_buf_ptr one_unread
                                      (x41 :: x42 :: repeat x00 254)) 2)
                = Some b'
       /\ size b' = size one_unread /\ read_idx b' = read_idx one_unread
       /\ length (buf_ptr b') = length (buf_ptr one_unread).
Proof.
  apply (write_frame one_unread [x42] 1 0).
  reflexivity.
Defined.

(** X13: whatever the buffer, a read that returns, returns 0 or -1
    and leaves the capacity, the write position and the storage as they
    were, and [dest] keeps its length: the consumer never touches the bytes
    or the position of the producer. *)
Theorem read_frame (b : ring_buffer) (dest out : list byte) (len rc : Z)
    (buffer' : option ring_buffer) :
  rb_read_from_buffer (Some b) dest len = Some (rc, buffer', out) ->
  (rc = 0 \/ rc = -1)
  /\ length out = length dest
  /\ exists b', buffer' = Some b'
       /\ size b' = size b /\ write_idx b' = write_idx b
       /\ buf_ptr b' = buf_ptr b.
Proof.
  unfold rb_read_from_buffer.
  destruct (len =? 0);
    [intros [= <- <- <-]; split; [tauto|]; split; [reflexivity|]; now exists b|].
  destruct (len <? 0);
    [intros [= <- <- <-]; split; [tauto|]; split; [reflexivity|]; now exists b|].
  destruct (rb_available_to_read (Some b)) as [av|]; [|discriminate].
  destruct (len >? av);
    [intros [= <- <- <-]; split; [tauto|]; split; [reflexivity|]; now exists b|].
  destruct (read_copy b dest len) as [o|] eqn:Eo; [|discriminate].
  destruct (int_rem _ _) as [next|]; [|discriminate].
  intros [= <- <- <-]. split; [tauto|].
  split; [now apply read_copy_length in Eo|].
  eexists. split; [reflexivity|]. repeat split.
Qed.

Lemma read_frame_witness :
  (0 = 0 \/ 0 = -1)
  /\ length [x41] = length [x00]
  /\ exists b', Some (set_read_idx one_unread 1) = Some b'
       /\ size b' = size one_unread /\ write_idx b' = write_idx one_unread
       /\ buf_ptr b' = buf_ptr one_unread.
Proof.
  apply (read_frame one_unread [x00] [x41] 1 0).
  reflexivity.
Defined.

(** ** No undefined call up to [2^30] *)

(** X14: on a well-formed buffer of a capacity up to [2^30] no
    sequence of writes and reads is undefined, as long as each call is
    given an array of at least [len] bytes: no copy leaves the storage, no
    remainder divides by zero, and the buffer stays well formed with the
    same capacity. *)
Theorem runs_defined_up_to_2_30 (b : ring_buffer) (ops : list op) :
  wf b -> small b -> Forall op_fits ops ->
  exists b', run b ops = Some b' /\ wf b' /\ size b' = size b.
Proof.
  intros H Hs Hf.
  destruct (small_run_defined ops b H Hs Hf) as [b' E].
  exists b'. split; [exact E|]. apply (run_wf ops b b' H E).
Qed.

Lemma runs_defined_up_to_2_30_witness :
  exists b',
    run empty_at_200 [Write (repeat x41 100) 100; Read [x00; x00] 2;
                      Write (repeat x42 300) 300; Read [x00] (-1)] = Some b'
    /\ wf b' /\ size b' = size empty_at_200.
Proof.
  apply (runs_defined_up_to_2_30 empty_at_200).
  - reflexivity.
  - unfold small; cbn; lia.
  - repeat (apply Forall_cons; [cbn; lia|]). apply Forall_nil.
Defined.

(** ** Creation *)

(** X15: with an allocator that keeps the promise of [calloc], the
    buffer [rb_create] returns for a positive capacity has exactly
    [capacity] bytes of storage, all zero, both positions at 0, a capacity
    that is a multiple of 256, and no unread byte. *)
Theorem create_zeroed (a : allocator) (c : Z) (b : ring_buffer) :
  calloc_spec a -> 0 < c <= INT_MAX -> rb_create a c = Some b ->
  b = {| size := c; buf_ptr := repeat x00 (Z.to_nat c);
         write_idx := 0; read_idx := 0 |}
  /\ wf b /\ c mod 256 = 0 /\ contents b = [].
Proof.
  intros Ha Hc E.
  destruct (create_wf a c b Ha Hc E) as (H & Hs & Hw & Hr & Hb).
  destruct (create_inv a c b E) as (Hal & _).
  split.
  { destruct b as [s p w r]. cbn in *. now subst. }
  split; [exact H|]. split; [exact Hal|].
  unfold contents, spec_available_to_read. rewrite Hs, Hw, Hr.
  replace (c + 0 - 0) with (0 + 1 * c) by lia.
  rewrite Z.mod_add by lia. rewrite Z.mod_0_l by lia. reflexivity.
Qed.

Lemma create_zeroed_witness :
  fresh_512 = {| size := 512; buf_ptr := repeat x00 (Z.to_nat 512);
                 write_idx := 0; read_idx := 0 |}
  /\ wf fresh_512 /\ 512 mod 256 = 0 /\ contents fresh_512 = [].
Proof.
  apply (create_zeroed libc 512 fresh_512).
  - exact libc_calloc_spec.
  - unfold INT_MAX; lia.
  - reflexivity.
Defined.

(** X16: a negative size is never turned into a buffer when the
    allocator refuses requests above [PTRDIFF_MAX]: the size passes the
    alignment test when it is a multiple of 256, and becomes a request of
    more than [2^63] bytes on its conversion to [size_t]. *)
Theorem create_negative (a : allocator) (c : Z) :
  refuses_huge a -> INT_MIN <= c < 0 -> rb_create a c = None.
Proof.
  intros Ha Hc. unfold rb_create.
  destruct (negb _); [reflexivity|].
  destruct (negb _); [reflexivity|].
  rewrite Ha; [reflexivity|].
  unfold to_size_t, INT_MIN in *.
  replace c with ((c + 18446744073709551616) + (-1) * 18446744073709551616)
    by lia.
  rewrite Z.mod_add by lia. rewrite Z.mod_small; lia.
Qed.

Lemma libc_refuses_huge : refuses_huge libc.
Proof.
  intros n Hn. cbn [calloc libc].
  destruct (Z.leb_spec n 9223372036854775807); [lia|reflexivity].
Qed.

Lemma create_negative_witness : rb_create libc (-256) = None.
Proof.
  apply (create_negative libc (-256)).
  - exact libc_refuses_huge.
  - unfold INT_MIN; lia.
Defined.

(** ** Calls in sequence *)

Lemma rot_inj {A : Type} (m m' : list A) (w : nat) :
  (w <= length m)%nat -> length m = length m' ->
  rot w m = rot w m' -> m = m'.
Proof.
  intros Hw Hl E.
  assert (R : forall l : list A, (w <= length l)%nat ->
                rot (length l - w) (rot w l) = l).
  { intros l Hl'. rewrite rot_rot_above by lia.
    replace (length l - w + w - length l)%nat with 0%nat by lia.
    apply rot_zero. }
  rewrite <- (R m Hw), <- (R m') by lia. rewrite E, Hl. reflexivity.
Qed.

Lemma two_puts_are_one {A : Type} (buf m1 m2 m12 s1 s2 : list A) (w w1 : nat) :
  length m1 = length buf -> length m2 = length buf ->
  length m12 = length buf ->
  (w <= length buf)%nat -> (w1 <= length buf)%nat ->
  (w1 = w + length s1 \/ w1 + length buf = w + length s1)%nat ->
  (length s1 + length s2 <= length buf)%nat ->
  rot w m1 = s1 ++ skipn (length s1) (rot w buf) ->
  rot w1 m2 = s2 ++ skipn (length s2) (rot w1 m1) ->
  rot w m12 = (s1 ++ s2) ++ skipn (length s1 + length s2) (rot w buf) ->
  m2 = m12.
Proof.
  intros L1 L2 L12 Hw Hw1 Hrel Hs E1 E2 E12.
  apply (rot_inj m2 m12 w); [lia|lia|].
  rewrite E12.
  set (X := skipn (length s1) (rot w buf)) in *.
  assert (LX : length X = (length buf - length s1)%nat)
    by (unfold X; rewrite length_skipn, rot_length; lia).
  assert (E1' : rot w1 m1 = X ++ s1).
  { rewrite (rot_by m1 w (length s1) w1) by lia.
    rewrite E1. unfold rot.
    now rewrite skipn_app_exact, firstn_app_exact by reflexivity. }
  rewrite E1' in E2.
  rewrite skipn_app_left in E2 by lia.
  rewrite (rot_by m2 w1 (length buf - length s1) w) by lia.
  rewrite E2, app_assoc. unfold rot.
  rewrite skipn_app_exact, firstn_app_exact
    by (rewrite length_app, length_skipn; lia).
  unfold X. rewrite skipn_skipn, <- !app_assoc.
  do 3 f_equal. lia.
Qed.

Lemma after_read_twice (b : ring_buffer) (l1 l2 : Z) :
  after_read (after_read b l1) l2 = after_read b (l1 + l2).
Proof.
  unfold after_read. cbn [size buf_ptr write_idx read_idx]. f_equal.
  rewrite Zplus_mod_idemp_l. f_equal. lia.
Qed.

Lemma after_write_twice (b : ring_buffer) (m1 m : list byte) (l1 l2 : Z) :
  after_write (after_write b m1 l1) m l2 = after_write b m (l1 + l2).
Proof.
  unfold after_write. cbn [size buf_ptr write_idx read_idx]. f_equal.
  rewrite Zplus_mod_idemp_l. f_equal. lia.
Qed.

(** X5: on a capacity up to [2^30], reading [l1] bytes and then
    [l2] bytes (both positive, [l1 + l2 <= rb_available_to_read]) leaves
    the same buffer as one read of [l1 + l2] bytes and delivers the same
    bytes in the same order. *)
Theorem reads_compose (b : ring_buffer) (dest1 dest2 dest : list byte)
    (l1 l2 ar : Z) :
  wf b -> small b -> rb_available_to_read (Some b) = Some ar ->
  0 < l1 -> 0 < l2 -> l1 + l2 <= ar ->
  l1 <= Z.of_nat (length dest1) -> l2 <= Z.of_nat (length dest2) ->
  l1 + l2 <= Z.of_nat (length dest) ->
  exists b1 b2 o1 o2 o,
    rb_read_from_buffer (Some b) dest1 l1 = Some (0, Some b1, o1)
    /\ rb_read_from_buffer (Some b1) dest2 l2 = Some (0, Some b2, o2)
    /\ rb_read_from_buffer (Some b) dest (l1 + l2) = Some (0, Some b2, o)
    /\ firstn (Z.to_nat (l1 + l2)) o
       = firstn (Z.to_nat l1) o1 ++ firstn (Z.to_nat l2) o2.
Proof.
  intros H Hs Har H1 H2 H12 Hd1 Hd2 Hd.
  destruct (small_read_accepted b dest1 l1 ar H Hs Har ltac:(lia) Hd1)
    as (R1 & W1 & B1).
  assert (Hs1 : small (after_read b l1)) by exact Hs.
  assert (Har1 : rb_available_to_read (Some (after_read b l1))
                 = Some (ar - l1)).
  { rewrite small_available_to_read by assumption.
    rewrite small_available_to_read in Har by assumption.
    injection Har as <-.
    now destruct (after_read_position b l1 H ltac:(lia)) as (_ & -> & _). }
  destruct (small_read_accepted _ dest2 l2 _ W1 Hs1 Har1 ltac:(lia) Hd2)
    as (R2 & W2 & B2).
  destruct (small_read_accepted b dest (l1 + l2) ar H Hs Har ltac:(lia) Hd)
    as (R12 & W12 & B12).
  rewrite after_read_twice in R2.
  do 5 eexists. split; [exact R1|]. split; [exact R2|]. split; [exact R12|].
  pose proof (contents_length b H) as LC.
  rewrite (contents_after_read b l1 H ltac:(lia)).
  rewrite !firstn_app_left;
    try (rewrite ?length_firstn, ?length_skipn; lia).
  rewrite !firstn_firstn, !Nat.min_id.
  rewrite firstn_then. f_equal. lia.
Qed.

Lemma reads_compose_witness :
  exists b1 b2 o1 o2 o,
    rb_read_from_buffer (Some wrapped_two) [x00] 1 = Some (0, Some b1, o1)
    /\ rb_read_from_buffer (Some b1) [x00] 1 = Some (0, Some b2, o2)
    /\ rb_read_from_buffer (Some wrapped_two) [x00; x00] (1 + 1)
       = Some (0, Some b2, o)
    /\ firstn (Z.to_nat (1 + 1)) o
       = firstn (Z.to_nat 1) o1 ++ firstn (Z.to_nat 1) o2.
Proof.
  apply (reads_compose wrapped_two [x00] [x00] [x00; x00] 1 1 2).
  - reflexivity.
  - unfold small; cbn; lia.
  - reflexivity.
  - lia.
  - lia.
  - lia.
  - cbn; lia.
  - cbn; lia.
  - cbn; lia.
Defined.

(** X4: on a capacity up to [2^30], writing [s1] ([l1] bytes) and
    then [l2] bytes of [s2] (both positive, [l1 + l2 <=
    rb_available_to_write]) leaves the same buffer, storage included, as
    one write of [l1 + l2] bytes of [s1 ++ s2]. *)
Theorem writes_compose (b : ring_buffer) (s1 s2 : list byte) (l1 l2 aw : Z) :
  wf b -> small b -> rb_available_to_write (Some b) = Some aw ->
  0 < l1 -> 0 < l2 -> l1 + l2 <= aw ->
  Z.of_nat (length s1) = l1 -> l2 <= Z.of_nat (length s2) ->
  exists b1 b2,
    rb_write_to_buffer (Some b) s1 l1 = Some (0, Some b1)
    /\ rb_write_to_buffer (Some b1) s2 l2 = Some (0, Some b2)
    /\ rb_write_to_buffer (Some b) (s1 ++ s2) (l1 + l2) = Some (0, Some b2).
Proof.
  intros H Hs Haw H1 H2 H12 Hs1 Hs2. pose proof H as H0. unwf H.
  destruct (small_write_accepted b s1 l1 aw H0 Hs Haw ltac:(lia) ltac:(lia))
    as (m1 & Hm1 & R1 & W1 & B1).
  assert (Hsm1 : small (after_write b m1 l1)) by exact Hs.
  assert (Haw1 : rb_available_to_write (Some (after_write b m1 l1))
                 = Some (aw - l1)).
  { rewrite small_available_to_write by assumption.
    rewrite small_available_to_write in Haw by assumption.
    injection Haw as <-.
    now destruct (after_write_position b m1 l1 H0 ltac:(lia)) as (_ & _ & ->). }
  destruct (small_write_accepted _ s2 l2 _ W1 Hsm1 Haw1 ltac:(lia) Hs2)
    as (m2 & Hm2 & R2 & W2 & B2).
  assert (Hs12 : l1 + l2 <= Z.of_nat (length (s1 ++ s2)))
    by (rewrite length_app; lia).
  destruct (small_write_accepted b (s1 ++ s2) (l1 + l2) aw H0 Hs Haw
              ltac:(lia) Hs12) as (m12 & Hm12 & R12 & W12 & B12).
  rewrite after_write_twice in R2.
  assert (Hb : 0 <= spec_available_to_write b < size b)
    by (apply Z.mod_pos_bound; lia).
  assert (Em : m2 = m12).
  { pose proof (write_in_rot b s1 m1 l1 H0 ltac:(lia) ltac:(lia) Hm1) as E1.
    pose proof (write_in_rot _ s2 m2 l2 W1 ltac:(cbn [after_write size]; lia)
                  Hs2 Hm2) as E2.
    pose proof (write_in_rot b (s1 ++ s2) m12 (l1 + l2) H0 ltac:(lia) Hs12
                  Hm12) as E12.
    apply spec_write_copy_length in Hm1, Hm2, Hm12.
    cbn [after_write buf_ptr] in Hm2, E2.
    destruct (after_write_position b m1 l1 H0 ltac:(lia)) as (Hpos & _).
    unwf W1. clear Hsz0 Hal0 Hlen0 Hr0.
    change (size (after_write b m1 l1)) with (size b) in Hw0.
    set (seg2 := firstn (Z.to_nat l2) s2) in *.
    assert (Lseg2 : length seg2 = Z.to_nat l2)
      by (unfold seg2; rewrite length_firstn; lia).
    rewrite firstn_all2 in E1 by lia.
    assert (E12' : firstn (Z.to_nat (l1 + l2)) (s1 ++ s2) = s1 ++ seg2).
    { rewrite firstn_app, (firstn_all2 s1) by lia. unfold seg2.
      do 2 f_equal. lia. }
    rewrite E12' in E12.
    apply (two_puts_are_one (buf_ptr b) m1 m2 m12 s1 seg2
             (Z.to_nat (write_idx b))
             (Z.to_nat (write_idx (after_write b m1 l1)))); try lia.
    - replace (length s1) with (Z.to_nat l1) by lia. exact E1.
    - rewrite Lseg2. exact E2.
    - replace (length s1 + length seg2)%nat with (Z.to_nat (l1 + l2)) by lia.
      exact E12. }
  rewrite Em in R2.
  do 2 eexists. split; [exact R1|]. split; [exact R2|exact R12].
Qed.

Lemma writes_compose_witness :
  exists b1 b2,
    rb_write_to_buffer (Some empty_at_200) (repeat x42 40) 40
    = Some (0, Some b1)
    /\ rb_write_to_buffer (Some b1) (repeat x43 40) 40 = Some (0, Some b2)
    /\ rb_write_to_buffer (Some empty_at_200)
         (repeat x42 40 ++ repeat x43 40) (40 + 40) = Some (0, Some b2).
Proof.
  apply (writes_compose empty_at_200 (repeat x42 40) (repeat x43 40)
           40 40 255).
  - reflexivity.
  - unfold small; cbn; lia.
  - reflexivity.
  - lia.
  - lia.
  - lia.
  - reflexivity.
  - cbn; lia.
Defined.

(** ** First in, first out *)

(** X3: on a capacity up to [2^30], whatever the buffer already
    holds, writing [B] ([L] bytes, [0 < L <= rb_available_to_write]) and
    then reading everything ([rb_available_to_read] before the write plus
    [L] bytes) returns the bytes that were unread, followed by [B], and
    leaves the buffer empty. The rest of [dest] is untouched. *)
Theorem fifo_order (b : ring_buffer) (B dest : list byte) (L aw ar : Z) :
  wf b -> small b ->
  rb_available_to_write (Some b) = Some aw ->
  rb_available_to_read (Some b) = Some ar ->
  Z.of_nat (length B) = L -> 0 < L <= aw ->
  ar + L <= Z.of_nat (length dest) ->
  exists b1 b2,
    rb_write_to_buffer (Some b) B L = Some (0, Some b1)
    /\ rb_read_from_buffer (Some b1) dest (ar + L)
       = Some (0, Some b2,
               contents b ++ B ++ skipn (Z.to_nat (ar + L)) dest)
    /\ is_empty b2.
Proof.
  intros H Hs Haw Har HB HL Hd. pose proof H as H0. unwf H.
  destruct (small_write_accepted b B L aw H0 Hs Haw HL ltac:(lia))
    as (m & Hm & R1 & W1 & B1).
  assert (Hs1 : small (after_write b m L)) by exact Hs.
  pose proof (contents_length b H0) as LC.
  rewrite small_available_to_read in Har by assumption. injection Har as <-.
  assert (Hb : 0 <= spec_available_to_read b < size b)
    by (apply Z.mod_pos_bound; lia).
  destruct (after_write_position b m L H0 ltac:(lia)) as (_ & Ear & _).
  assert (Har1 : rb_available_to_read (Some (after_write b m L))
                 = Some (spec_available_to_read b + L)).
  { rewrite small_available_to_read by assumption. now rewrite Ear. }
  destruct (small_read_accepted (after_write b m L) dest
              (spec_available_to_read b + L) (spec_available_to_read b + L)
              W1 Hs1 Har1 ltac:(lia) Hd)
    as (R2 & W2 & B2).
  rewrite (contents_after_write b B m L H0 ltac:(lia) ltac:(lia) Hm) in R2.
  rewrite (firstn_all2 B) in R2 by lia.
  rewrite firstn_all2 in R2 by (rewrite length_app; lia).
  rewrite <- app_assoc in R2.
  do 2 eexists. split; [exact R1|]. split; [exact R2|].
  destruct (after_read_position _ (spec_available_to_read b + L) W1
              ltac:(lia)) as (_ & Ear2 & _).
  rewrite Ear in Ear2.
  set (b2 := after_read (after_write b m L) (spec_available_to_read b + L))
    in *.
  unwf W2.
  destruct (spec_available_cases b2 W2) as [(C & Er & _)|(C & Er & _)];
    unfold is_empty; lia.
Qed.

Lemma fifo_order_witness :
  exists b1 b2,
    rb_write_to_buffer (Some wrapped_two) [x43] 1 = Some (0, Some b1)
    /\ rb_read_from_buffer (Some b1) [x00; x00; x00; x00] (2 + 1)
       = Some (0, Some b2,
               contents wrapped_two ++ [x43]
               ++ skipn (Z.to_nat (2 + 1)) [x00; x00; x00; x00])
    /\ is_empty b2.
Proof.
  apply (fifo_order wrapped_two [x43] [x00; x00; x00; x00] 1 253 2).
  - reflexivity.
  - unfold small; cbn; lia.
  - reflexivity.
  - reflexivity.
  - reflexivity.
  - lia.
  - cbn; lia.
Defined.

(** ** Accepted calls at any capacity *)

(** X17: on a well-formed buffer of any capacity, a write that the guards
    accept ([0 < len <= rb_available_to_write]) and whose
    [write_idx + len] stays within [INT_MAX] (with [src] holding [len]
    bytes) returns 0, appends the first [len] bytes of [src] to the unread
    bytes, overwrites none of them, and leaves a well-formed buffer. *)
Theorem write_appends_within_int (b : ring_buffer) (src : list byte)
    (len av : Z) :
  wf b -> rb_available_to_write (Some b) = Some av ->
  0 < len <= av -> write_idx b + len <= INT_MAX ->
  len <= Z.of_nat (length src) ->
  exists b',
    rb_write_to_buffer (Some b) src len = Some (0, Some b')
    /\ wf b'
    /\ contents b' = contents b ++ firstn (Z.to_nat len) src.
Proof.
  intros H Hav Hl Hno Hsrc. pose proof H as H0. unwf H.
  destruct (available_to_write_defined b H0) as (v & Hv & _ & Hpos).
  rewrite Hav in Hv. injection Hv as <-.
  destruct (Hpos ltac:(lia)) as [Eav Hno1].
  assert (Hb : 0 <= spec_available_to_write b < size b)
    by (apply Z.mod_pos_bound; lia).
  destruct (spec_write_copy_defined b src len H0 ltac:(lia) Hsrc) as [m Hm].
  exists (after_write b m len). split; [|split].
  - rewrite write_accepts by (assumption || lia). now rewrite Hm.
  - apply after_write_wf; [exact H0|].
    now apply spec_write_copy_length in Hm.
  - apply contents_after_write; (assumption || lia).
Qed.

Lemma write_appends_within_int_witness :
  exists b',
    rb_write_to_buffer (Some empty_at_200) (repeat x42 100) 100
    = Some (0, Some b')
    /\ wf b'
    /\ contents b'
       = contents empty_at_200 ++ firstn (Z.to_nat 100) (repeat x42 100).
Proof.
  apply (write_appends_within_int empty_at_200 (repeat x42 100) 100 255).
  - reflexivity.
  - reflexivity.
  - lia.
  - unfold INT_MAX; cbn; lia.
  - cbn; lia.
Defined.

(** X18: on a well-formed buffer of any capacity, a read that the guards
    accept ([0 < len <= rb_available_to_read]) and whose [read_idx + len]
    stays within [INT_MAX] (with [dest] holding [len] bytes) returns 0,
    puts the [len] oldest unread bytes at the start of [dest], leaves the
    rest of [dest] as it was, and removes exactly those bytes from the
    unread bytes. *)
Theorem read_takes_oldest_within_int (b : ring_buffer) (dest : list byte)
    (len av : Z) :
  wf b -> rb_available_to_read (Some b) = Some av ->
  0 < len <= av -> read_idx b + len <= INT_MAX ->
  len <= Z.of_nat (length dest) ->
  exists b',
    rb_read_from_buffer (Some b) dest len
    = Some (0, Some b',
            firstn (Z.to_nat len) (contents b) ++ skipn (Z.to_nat len) dest)
    /\ wf b'
    /\ contents b' = skipn (Z.to_nat len) (contents b).
Proof.
  intros H Hav Hl Hno Hd. pose proof H as H0. unwf H.
  destruct (available_to_read_defined b H0) as (v & Hv & _ & Hpos).
  rewrite Hav in Hv. injection Hv as <-.
  destruct (Hpos ltac:(lia)) as [Eav Hno1].
  assert (Hb : 0 <= spec_available_to_read b < size b)
    by (apply Z.mod_pos_bound; lia).
  destruct (spec_read_copy_defined b dest len H0 ltac:(lia) Hd) as [out Hout].
  exists (after_read b len). split; [|split].
  - rewrite read_accepts by (assumption || lia). rewrite Hout.
    do 3 f_equal.
    rewrite (read_in_rot b dest out len H0 ltac:(lia) Hd Hout).
    f_equal. unfold contents. rewrite firstn_firstn. f_equal. lia.
  - now apply after_read_wf.
  - apply contents_after_read; (assumption || lia).
Qed.

Lemma read_takes_oldest_within_int_witness :
  exists b',
    rb_read_from_buffer (Some wrapped_two) [x00; x00; x00] 2
    = Some (0, Some b',
            firstn (Z.to_nat 2) (contents wrapped_two)
            ++ skipn (Z.to_nat 2) [x00; x00; x00])
    /\ wf b'
    /\ contents b' = skipn (Z.to_nat 2) (contents wrapped_two).
Proof.
  apply (read_takes_oldest_within_int wrapped_two [x00; x00; x00] 2 2).
  - reflexivity.
  - reflexivity.
  - lia.
  - unfold INT_MAX; cbn; lia.
  - cbn; lia.
Defined.
